(** * InterviewMate: a shallow embedding of [main.py]

    The program is a sequential console script: it asks for a job topic, an
    input mode and a number of questions per round, then loops over rounds
    of question / answer / feedback.  Everything it does is string handling
    plus calls to three collaborators (console, speech engine, language
    model).  The embedding below follows the script function by function:

    - [Py]       the Python built-ins the script relies on
                 ([str.strip], [str.lower], [str.join], [int], [repr]);
    - [Runtime]  the collaborators as a scripted world and a small
                 state-and-exception monad over it;
    - [Chains]   the two prompt templates and the chain wiring of
                 [__init__];
    - [Mate]     [speak], [listen], [get_user_answer] and
                 [run_interview_session].

    Characters are Rocq [ascii] values read as the code points 0..255; the
    classification tables of [Py] are the ones of Python 3 on that range.

    The outside is a script: the lines the user will type, the answers the
    recogniser will give and the completions the model will give, each a
    list used up from the front, and the list of what was printed, said and
    sent.  When the console has no line left, [input] raises [EOFError] as
    it does at the end of the input; a recogniser or a model without an
    answer left does not come back.  The speech engine and the capture of
    the microphone are taken to work: [speak] and the capture at the head
    of [listen] raise nothing here, so the exceptions a script can raise
    below are not all the program can raise.  The loops of the script are
    run by a combinator with fuel; each loop gets more fuel than it can
    use, which is proved below. *)

From Stdlib Require Import List String Ascii ZArith NArith Lia Bool Arith.
From Stdlib Require Import DecimalString.
Import ListNotations.
Open Scope string_scope.

Set Implicit Arguments.

(* ------------------------------------------------------------------ *)
(** * Python built-ins *)

Module Py.

Definition code (c : ascii) : N := N_of_ascii c.

Definition nl : string := String (ascii_of_nat 10) "".
Definition dquote : string := String (ascii_of_nat 34) "".

(** [str.isspace] on one character (code points below 256). *)
Definition isspace (c : ascii) : bool :=
  let n := code c in
  ((9 <=? n) && (n <=? 13) || (28 <=? n) && (n <=? 32)
   || (n =? 133) || (n =? 160))%N.

(** [str.lstrip()], [str.rstrip()] and [str.strip()] without argument. *)
Fixpoint lstrip (s : string) : string :=
  match s with
  | String c r => if isspace c then lstrip r else s
  | EmptyString => EmptyString
  end.

Fixpoint rstrip (s : string) : string :=
  match s with
  | String c r =>
      match rstrip r with
      | EmptyString => if isspace c then EmptyString else String c EmptyString
      | r' => String c r'
      end
  | EmptyString => EmptyString
  end.

Definition strip (s : string) : string := rstrip (lstrip s).

(** [str.lower()]: A-Z and the Latin-1 capitals 0xC0-0xDE (0xD7 apart). *)
Definition lower_char (c : ascii) : ascii :=
  let n := code c in
  if ((65 <=? n) && (n <=? 90)
      || (192 <=? n) && (n <=? 222) && negb (n =? 215))%N
  then ascii_of_N (n + 32) else c.

Fixpoint lower (s : string) : string :=
  match s with
  | String c r => String (lower_char c) (lower r)
  | EmptyString => EmptyString
  end.

(** [sep.join(items)]. *)
Definition join (sep : string) (items : list string) : string :=
  String.concat sep items.

(** [x in [a, b, ...]] for strings. *)
Definition str_in (x : string) (l : list string) : bool :=
  existsb (String.eqb x) l.

(** Truth value of a string: only the empty string is falsy. *)
Definition truthy (s : string) : bool :=
  match s with EmptyString => false | _ => true end.

(** [str(n)] for an integer. *)
Definition str_of_int (n : Z) : string :=
  NilZero.string_of_int (Z.to_int n).

(** [c * n] for a one-character string. *)
Fixpoint times (c : string) (n : nat) : string :=
  match n with O => "" | S k => c ++ times c k end.

(** ** [int(s)] in base 10

    Leading and trailing white space is dropped (the set [int] accepts is
    smaller than the one of [isspace]: 0x1C-0x1F are refused), then an
    optional sign, then decimal digits in which single underscores may
    separate digits.  A text with more than 4300 digits (leading zeros
    counted, sign and underscores not) is refused: this is the
    interpreter's limit [sys.int_max_str_digits].  [None] stands for
    [ValueError]. *)

Definition int_space (c : ascii) : bool :=
  let n := code c in
  ((9 <=? n) && (n <=? 13) || (n =? 32) || (n =? 133) || (n =? 160))%N.

Definition digit (c : ascii) : option Z :=
  let n := code c in
  if ((48 <=? n) && (n <=? 57))%N then Some (Z.of_N n - 48)%Z else None.

Definition is_underscore (c : ascii) : bool := (code c =? 95)%N.

Fixpoint skip_space (s : string) : string :=
  match s with
  | String c r => if int_space c then skip_space r else s
  | EmptyString => EmptyString
  end.

Fixpoint all_space (s : string) : bool :=
  match s with
  | String c r => int_space c && all_space r
  | EmptyString => true
  end.

(** Digits after the first one; [after_us] tells that the previous
    character was an underscore, which must be followed by a digit. *)
Fixpoint more_digits (acc : Z) (after_us : bool) (s : string) : option Z :=
  match s with
  | EmptyString => if after_us then None else Some acc
  | String c r =>
      match digit c with
      | Some d => more_digits (10 * acc + d) false r
      | None =>
          if is_underscore c then
            if after_us then None else more_digits acc true r
          else if after_us then None
          else if all_space s then Some acc else None
      end
  end.

Definition max_str_digits : N := 4300.

Fixpoint count_digits (s : string) : N :=
  match s with
  | String c r =>
      ((match digit c with Some _ => 1 | None => 0 end) + count_digits r)%N
  | EmptyString => 0%N
  end.

Definition unsigned (s : string) : option Z :=
  match s with
  | String c r =>
      match digit c with
      | Some d =>
          if (count_digits s <=? max_str_digits)%N
          then more_digits d false r
          else None
      | None => None
      end
  | EmptyString => None
  end.

Definition int (s : string) : option Z :=
  match skip_space s with
  | String "+" r => unsigned r
  | String "-" r => option_map Z.opp (unsigned r)
  | t => unsigned t
  end.

(** ** [repr] of strings, integers and dictionaries *)

Definition isprintable (c : ascii) : bool :=
  let n := code c in
  ((32 <=? n) && (n <=? 126) || (161 <=? n) && negb (n =? 173))%N.

Definition hex_digit (n : N) : string :=
  String (ascii_of_N (if (n <? 10)%N then 48 + n else 87 + n)) "".

Fixpoint contains_char (q : ascii) (s : string) : bool :=
  match s with
  | String c r => Ascii.eqb c q || contains_char q r
  | EmptyString => false
  end.

Definition escape_char (quote : ascii) (c : ascii) : string :=
  let n := code c in
  if Ascii.eqb c quote || (n =? 92)%N then String "\" (String c "")
  else if (n =? 9)%N then "\t"
  else if (n =? 10)%N then "\n"
  else if (n =? 13)%N then "\r"
  else if isprintable c then String c ""
  else "\x" ++ hex_digit (n / 16) ++ hex_digit (n mod 16).

Fixpoint escape (quote : ascii) (s : string) : string :=
  match s with
  | String c r => escape_char quote c ++ escape quote r
  | EmptyString => EmptyString
  end.

(** [repr(s)]: single quotes, unless the text has a single quote and no
    double quote. *)
Definition repr_str (s : string) : string :=
  let quote :=
    if contains_char "'" s && negb (contains_char (ascii_of_nat 34) s)
    then ascii_of_nat 34 else "'"%char in
  String quote (escape quote s) ++ String quote "".

(** The values the script puts in a chain input. *)
#[local] Unset Elimination Schemes.
Inductive value : Type :=
| VStr (s : string)
| VInt (n : Z)
| VDict (d : list (string * value)).

#[local] Set Elimination Schemes.

Definition dict := list (string * value).

Fixpoint repr (v : value) : string :=
  match v with
  | VStr s => repr_str s
  | VInt n => str_of_int n
  | VDict d =>
      "{" ++ join ", "
               (map (fun kv => match kv with
                               | (k, x) => repr_str k ++ ": " ++ repr x
                               end) d)
          ++ "}"
  end.

(** [str(v)], which is what [str.format] substitutes for a field. *)
Definition str (v : value) : string :=
  match v with
  | VStr s => s
  | _ => repr v
  end.

Fixpoint get (k : string) (d : dict) : option value :=
  match d with
  | (k', v) :: r => if String.eqb k k' then Some v else get k r
  | [] => None
  end.

(** [s.split("\n")]: the lines of a text. *)
Fixpoint lines_from (cur : string) (s : string) : list string :=
  match s with
  | EmptyString => [cur]
  | String c r =>
      if (code c =? 10)%N then cur :: lines_from "" r
      else lines_from (cur ++ String c "") r
  end.

Definition lines (s : string) : list string := lines_from "" s.

(** [needle in s]. *)
Fixpoint contains (needle s : string) : bool :=
  String.prefix needle s
  || match s with
     | String _ r => contains needle r
     | EmptyString => false
     end.

End Py.

(* ------------------------------------------------------------------ *)
(** * The collaborators and the monad of the script *)

Module Runtime.

(** Exceptions that occur in the script: the two that [listen] handles,
    the one the configuration loop handles, end of input on the console,
    and any other fault of a collaborator. *)
Inductive exn : Type :=
| UnknownValueError
| RequestError
| ValueError
| EOFError
| Fault (what : string).

(** One scripted answer of a collaborator (speech recogniser or language
    model): a text, or an exception. *)
Inductive reply : Type :=
| Gives (text : string)
| Throws (e : exn).

Inductive chain : Type := question_chain | feedback_chain.

(** What the script does to the outside, in order. *)
Inductive event : Type :=
| Printed (text : string)                       (* print(text) *)
| Said (text : string)                          (* engine.say; runAndWait *)
| Prompted (text : string)                      (* the prompt of input() *)
| Invoked (c : chain) (inputs : Py.dict) (completion : string).

Record World : Type := mkWorld {
  stdin : list string;      (* the lines the user will type *)
  mic   : list reply;       (* what recognize_google will answer *)
  llm   : list reply;       (* what the model will answer *)
  out   : list event        (* everything emitted so far, latest first *)
}.

Definition log (e : event) (w : World) : World :=
  mkWorld (stdin w) (mic w) (llm w) (e :: out w).

(** The emitted events in the order they happened. *)
Definition trace (w : World) : list event := rev (out w).

(** Outcome of running a piece of the script.  [Pending] is a call to the
    microphone or to the model that does not come back (its script is
    used up); [OutOfFuel] belongs to the loop combinator below. *)
Inductive Res (A : Type) : Type :=
| Ret (a : A) (w : World)
| Raise (e : exn) (w : World)
| Pending (w : World)
| OutOfFuel.

Arguments Raise {A} e w.
Arguments Pending {A} w.
Arguments OutOfFuel {A}.

Definition M (A : Type) : Type := World -> Res A.

Definition ret {A} (a : A) : M A := fun w => Ret a w.

Definition bind {A B} (m : M A) (f : A -> M B) : M B :=
  fun w =>
    match m w with
    | Ret a w' => f a w'
    | Raise e w' => Raise e w'
    | Pending w' => Pending w'
    | OutOfFuel => OutOfFuel
    end.

Definition raise {A} (e : exn) : M A := fun w => Raise e w.

(** [try: body except ...: handler]; a handler re-raises what it does not
    catch. *)
Definition try {A} (body : M A) (handler : exn -> M A) : M A :=
  fun w =>
    match body w with
    | Raise e w' => handler e w'
    | r => r
    end.

Definition emit (e : event) : M unit := fun w => Ret tt (log e w).

Definition print (text : string) : M unit := emit (Printed text).

(** [input(prompt)]: end of input raises [EOFError]. *)
Definition input (prompt : string) : M string :=
  fun w =>
    match stdin w with
    | line :: rest =>
        Ret line (mkWorld rest (mic w) (llm w) (Prompted prompt :: out w))
    | [] => Raise EOFError (log (Prompted prompt) w)
    end.

(** [recognizer.recognize_google(audio)] on the audio just captured. *)
Definition recognize_google : M string :=
  fun w =>
    match mic w with
    | Gives text :: rest => Ret text (mkWorld (stdin w) rest (llm w) (out w))
    | Throws e :: rest => Raise e (mkWorld (stdin w) rest (llm w) (out w))
    | [] => Pending w
    end.

(** The model behind a chain: the next scripted completion. *)
Definition complete : M string :=
  fun w =>
    match llm w with
    | Gives text :: rest => Ret text (mkWorld (stdin w) (mic w) rest (out w))
    | Throws e :: rest => Raise e (mkWorld (stdin w) (mic w) rest (out w))
    | [] => Pending w
    end.

(** Loops.  A body says whether the loop goes on with a new state or is
    left with a result. *)
Inductive ctl (S R : Type) : Type :=
| Continue (s : S)
| Break (r : R).

Arguments Continue {S R} s.
Arguments Break {S R} r.

Fixpoint loop {S R} (fuel : nat) (body : S -> M (ctl S R)) (s : S) : M R :=
  match fuel with
  | O => fun _ => OutOfFuel
  | Datatypes.S n =>
      bind (body s) (fun c =>
        match c with
        | Continue s' => loop n body s'
        | Break r => ret r
        end)
  end.

(** [for i in range(n)] threading a state. *)
Fixpoint for_range {S} (n : nat) (body : S -> M S) (s : S) : M S :=
  match n with
  | O => ret s
  | Datatypes.S k => bind (body s) (for_range k body)
  end.

End Runtime.

Import Runtime.

Declare Scope script_scope.
Delimit Scope script_scope with script.
Notation "x <- m ;; k" := (bind m (fun x => k))
  (at level 61, m at next level, right associativity) : script_scope.
Notation "m ;; k" := (bind m (fun _ => k))
  (at level 61, right associativity) : script_scope.
Open Scope script_scope.

(* ------------------------------------------------------------------ *)
(** * Prompt templates and chains *)

Module Chains.

Import Py.

(** A template of [PromptTemplate], already cut at its fields. *)
Inductive segment : Type :=
| Lit (text : string)
| Field (name : string).

Definition template := list segment.

(** The text of a template given line by line. *)
Fixpoint of_lines (ls : list template) : template :=
  match ls with
  | [] => []
  | [l] => l
  | l :: r => (l ++ Lit nl :: of_lines r)%list
  end.

Definition persona : template :=
  [Lit ("You are an AI interview assistant named " ++ dquote
        ++ "InterviewMate" ++ dquote
        ++ ". You are an expert interviewer for all professional fields.")].

Definition question_template : template :=
  of_lines
    [ [];
      persona;
      [];
      [Lit "The user wants to practice for an interview in the field of: ";
       Field "job_topic"];
      [];
      [Lit "Generate a challenging and realistic interview question about ";
       Field "job_topic";
       Lit ". This should be question #";
       Field "question_number";
       Lit " in the practice session."];
      [];
      [Lit "Make sure the question is:"];
      [Lit "- Technical and specific to the job topic"];
      [Lit "- Similar to what might be asked in a real interview"];
      [Lit "- Challenging but answerable"];
      [Lit "- Clear and concise"];
      [];
      [Lit "Previous questions asked in this session:"];
      [Field "previous_questions"];
      [];
      [Lit ("IMPORTANT: Do NOT repeat any of the previous questions. "
            ++ "Generate a completely new and different question.")];
      [];
      [Lit ("Return ONLY the interview question without any introductory "
            ++ "text or explanations.")];
      [] ].

Definition feedback_template : template :=
  of_lines
    [ [];
      persona;
      [];
      [Lit ("You are evaluating a candidate's answer to an interview "
            ++ "question about ");
       Field "job_topic"; Lit "."];
      [];
      [Lit "Question: "; Field "question"];
      [Lit "Candidate's Answer: "; Field "answer"];
      [];
      [Lit "Provide detailed feedback on the candidate's answer. Include:"];
      [Lit "1. Whether the answer is technically correct or incorrect"];
      [Lit "2. Strengths of the answer"];
      [Lit "3. Areas for improvement"];
      [Lit "4. A model answer that would be considered excellent"];
      [Lit "5. Any key points that were missed"];
      [];
      [Lit ("Be specific, constructive, and helpful. Your goal is to help "
            ++ "the candidate improve their interview skills.")];
      [] ].

(** [template.format] on the keyword arguments [vars]: every field is
    replaced by [str] of its value; a field without value is a [KeyError]
    ([None]). *)
Fixpoint format (t : template) (vars : dict) : option string :=
  match t with
  | [] => Some ""
  | Lit text :: r => option_map (append text) (format r vars)
  | Field name :: r =>
      match get name vars, format r vars with
      | Some v, Some rest => Some (str v ++ rest)
      | _, _ => None
      end
  end.

(** [RunnablePassthrough()] hands on the input it receives. *)
Definition RunnablePassthrough (input : value) : value := input.

(** The dict of runnables at the head of each chain (lines 74 and 81) is
    run as a [RunnableParallel]: each of its runnables is invoked on the
    whole input of the chain, and the results are collected under the
    keys.  With [RunnablePassthrough()] under every key, every key gets
    the input dict itself. *)
Definition parallel (steps : list (string * (value -> value)))
    (input : value) : dict :=
  map (fun kr => (fst kr, snd kr input)) steps.

Definition first_step (c : chain) : list (string * (value -> value)) :=
  match c with
  | question_chain =>
      [("job_topic", RunnablePassthrough);
       ("question_number", RunnablePassthrough);
       ("previous_questions", RunnablePassthrough)]
  | feedback_chain =>
      [("job_topic", RunnablePassthrough);
       ("question", RunnablePassthrough);
       ("answer", RunnablePassthrough)]
  end.

Definition template_of (c : chain) : template :=
  match c with
  | question_chain => question_template
  | feedback_chain => feedback_template
  end.

(** The prompt a chain sends to the model for the input [inputs]:
    first step, then the template. *)
Definition prompt_of (c : chain) (inputs : dict) : option string :=
  format (template_of c) (parallel (first_step c) (VDict inputs)).

(** [chain.invoke(inputs)]: prompt, model, [StrOutputParser]. *)
Definition invoke (c : chain) (inputs : dict) : M string :=
  match prompt_of c inputs with
  | Some _ =>
      completion <- complete ;;
      emit (Invoked c inputs completion) ;;
      ret completion
  | None => raise (Fault "KeyError")
  end.

End Chains.

(* ------------------------------------------------------------------ *)
(** * [VoiceEnabledInterviewMate] *)

Module Mate.

Import Py Chains.

(** [speak(text)]: print, then say. *)
Definition speak (text : string) : M unit :=
  print text ;;
  emit (Said text).

(** [listen()]: the recognised text, or [None] after one of the two
    handled exceptions; anything else goes up to the caller. *)
Definition listen : M (option string) :=
  print "Listening..." ;;
  try (print "Recognizing..." ;;
       text <- recognize_google ;;
       print ("You said: " ++ text) ;;
       ret (Some text))
      (fun e =>
         match e with
         | UnknownValueError =>
             print "Sorry, I didn't understand that." ;;
             ret None
         | RequestError =>
             print ("Sorry, I'm having trouble accessing the speech "
                    ++ "recognition service.") ;;
             ret None
         | _ => raise e
         end).

Definition max_silence : Z := 3.

Definition finished_prompt : string :=
  "Are you finished with your answer? If so, wait. If not, continue speaking.".

Definition no_answer : string := "No answer provided.".

(** The [else] branch of the voice loop. *)
Definition silence (answer_parts : list string) (silence_count : Z)
  : M (ctl (list string * Z) (list string)) :=
  let silence_count := (silence_count + 1)%Z in
  (if (silence_count =? 1)%Z then speak finished_prompt else ret tt) ;;
  ret (Continue (answer_parts, silence_count)).

(** One turn of [while silence_count < max_silence]. *)
Definition voice_turn (st : list string * Z)
  : M (ctl (list string * Z) (list string)) :=
  let '(answer_parts, silence_count) := st in
  if (silence_count <? max_silence)%Z then
    user_input <- listen ;;
    match user_input with
    | Some text =>
        if truthy text
        then ret (Continue ((answer_parts ++ [text])%list, 0%Z))
        else silence answer_parts silence_count
    | None => silence answer_parts silence_count
    end
  else ret (Break answer_parts).

(** One turn of the [while True] of the text branch; [input()] writes no
    prompt, which is the empty prompt here. *)
Definition text_turn (answer_lines : list string)
  : M (ctl (list string) (list string)) :=
  line <- input "" ;;
  if String.eqb (strip line) "" then
    match answer_lines with
    | [] => ret (Continue answer_lines)
    | _ => ret (Break answer_lines)
    end
  else ret (Continue (answer_lines ++ [line])%list).

(** [" ".join(answer_parts) if answer_parts else "No answer provided."] *)
Definition voice_result (answer_parts : list string) : string :=
  match answer_parts with
  | [] => no_answer
  | _ => join " " answer_parts
  end.

(** Each loop is given one unit of fuel more than the script it reads has
    entries: every turn that goes on has used up one entry. *)
Definition get_user_answer (use_voice : bool) : M string :=
  if use_voice then
    speak ("Please provide your answer. When you're finished, "
           ++ "remain silent for a moment.") ;;
    answer_parts <-
      (fun w => loop (S (List.length (mic w))) voice_turn ([], 0%Z) w) ;;
    ret (voice_result answer_parts)
  else
    print "Type your answer below (press Enter twice when finished):" ;;
    answer_lines <-
      (fun w => loop (S (List.length (stdin w))) text_turn [] w) ;;
    ret (join nl answer_lines).

(** The two strategies under the names of the specification. *)
Definition collect_voice_answer : M string := get_user_answer true.
Definition collect_text_answer : M string := get_user_answer false.

(** ** The session *)

Record Config : Type := mkConfig {
  job_topic : string;
  use_voice : bool;
  questions_per_round : Z
}.

Definition says_yes (answer : string) : bool :=
  str_in (lower answer) ["yes"; "y"].

(** One turn of the [while True] that reads the number of questions. *)
Definition count_turn (_ : unit) : M (ctl unit Z) :=
  line <- input "How many questions per round? " ;;
  match int line with
  | Some questions_per_round =>
      if (questions_per_round >? 0)%Z then ret (Break questions_per_round)
      else speak "Please enter a positive number." ;; ret (Continue tt)
  | None => speak "Please enter a valid number." ;; ret (Continue tt)
  end.

Definition ask_count : M Z :=
  fun w => loop (S (List.length (stdin w))) count_turn tt w.

(** Lines 147-168: the greeting and the three settings. *)
Definition configure : M Config :=
  speak "Welcome to InterviewMate Practice System!" ;;
  speak ("Enter the job topic you want to practice for. For example, "
         ++ "Software Engineering, Marketing, or Data Science.") ;;
  job_topic <- input "Enter job topic: " ;;
  speak "Would you like to use voice input for your answers? Say yes or no." ;;
  voice_preference <- input "Use voice input for answers? (yes/no): " ;;
  let use_voice := says_yes voice_preference in
  speak "How many questions would you like to practice per round?" ;;
  questions_per_round <- ask_count ;;
  ret (mkConfig job_topic use_voice questions_per_round).

(** Line 179. *)
Definition prev_questions_formatted (previous_questions : list string)
  : string :=
  match previous_questions with
  | [] => "None yet."
  | _ => join nl (map (fun q => "- " ++ q) previous_questions)
  end.

Definition question_inputs (job_topic : string) (question_number : Z)
    (previous_questions : list string) : dict :=
  [("job_topic", VStr job_topic);
   ("question_number", VInt question_number);
   ("previous_questions",
    VStr (prev_questions_formatted previous_questions))].

Definition feedback_inputs (job_topic question answer : string) : dict :=
  [("job_topic", VStr job_topic);
   ("question", VStr question);
   ("answer", VStr answer)].

(** The prompt that reaches the model when the session asks for a
    question: [render_question_prompt] of the specification. *)
Definition render_question_prompt (job_topic : string) (question_number : Z)
    (previous_questions : list string) : option string :=
  prompt_of question_chain
    (question_inputs job_topic question_number previous_questions).

(** The progress of a session: the next question number and the
    questions asked so far. *)
Definition Progress : Type := (Z * list string)%type.

(** The body of [for i in range(questions_per_round)]. *)
Definition one_question (cfg : Config) (st : Progress) : M Progress :=
  let '(question_number, previous_questions) := st in
  print (nl ++ times "=" 60) ;;
  interview_question <-
    invoke question_chain
      (question_inputs (job_topic cfg) question_number previous_questions) ;;
  let previous_questions := (previous_questions ++ [interview_question])%list in
  speak ("Question " ++ str_of_int question_number ++ ":") ;;
  speak interview_question ;;
  user_answer <- get_user_answer (use_voice cfg) ;;
  speak "Analyzing your answer..." ;;
  feedback <-
    invoke feedback_chain
      (feedback_inputs (job_topic cfg) interview_question user_answer) ;;
  speak "Here's your feedback:" ;;
  speak feedback ;;
  ret ((question_number + 1)%Z, previous_questions).

Definition run_round (cfg : Config) (st : Progress) : M Progress :=
  for_range (Z.to_nat (questions_per_round cfg)) (one_question cfg) st.

Definition continue_question : string :=
  "Would you like to continue with another round of questions? Say yes or no.".

Definition continue_prompt : string :=
  nl ++ "Continue with another round? (yes/no): ".

Definition closing : string :=
  "Thank you for using InterviewMate Practice System. "
  ++ "Good luck with your interviews!".

(** Lines 210-213. *)
Definition round_decision : M bool :=
  speak continue_question ;;
  continue_input <- input continue_prompt ;;
  ret (says_yes continue_input).

(** One turn of [while continue_practice]. *)
Definition practice_turn (cfg : Config) (st : bool * Progress)
  : M (ctl (bool * Progress) Progress) :=
  let '(continue_practice, progress) := st in
  if continue_practice then
    progress <- run_round cfg progress ;;
    continue_practice <- round_decision ;;
    ret (Continue (continue_practice, progress))
  else ret (Break progress).

(** Lines 170-213, started from any progress. *)
Definition practice_from (cfg : Config) (progress : Progress) : M Progress :=
  fun w =>
    loop (S (List.length (stdin w))) (practice_turn cfg) (true, progress) w.

Definition practice (cfg : Config) : M Progress :=
  practice_from cfg (1%Z, []).

Definition run_interview_session : M unit :=
  cfg <- configure ;;
  practice cfg ;;
  speak closing.

End Mate.

Import Py Chains Mate.

Unset Implicit Arguments.

(* ------------------------------------------------------------------ *)
(** * Notions used in the statements and proofs *)

(** ** Lines and characters *)


(** A line is blank when nothing is left of it after [strip]. *)
Definition blank (line : string) : bool := String.eqb (strip line) "".


(** ** The text strategy, line by line *)

Definition typing_hint : string :=
  "Type your answer below (press Enter twice when finished):".

(** The [while True] loop of the text branch read off the console
    script: the same steps as [text_turn], by recursion on the lines that
    are still to come. *)
Fixpoint text_run (answer_lines lines : list string) (m l : list reply)
    (o : list event) : Res (list string) :=
  match lines with
  | [] => Raise EOFError (mkWorld [] m l (Prompted "" :: o))
  | line :: rest =>
      if blank line then
        match answer_lines with
        | [] => text_run [] rest m l (Prompted "" :: o)
        | _ => Ret answer_lines (mkWorld rest m l (Prompted "" :: o))
        end
      else text_run (answer_lines ++ [line]) rest m l (Prompted "" :: o)
  end.

Definition joined (r : Res (list string)) : Res string :=
  match r with
  | Ret answer_lines w => Ret (join nl answer_lines) w
  | Raise e w => Raise e w
  | Pending w => Pending w
  | OutOfFuel => OutOfFuel
  end.

(** ** The voice strategy, answer by answer *)

(** The three results of [listen()] the specification names, and the
    answer of the recogniser behind each. *)
Inductive listen_result : Type :=
| RecognizedText (text : string)
| Unrecognized
| ServiceError.

Definition heard (r : listen_result) : reply :=
  match r with
  | RecognizedText text => Gives text
  | Unrecognized => Throws UnknownValueError
  | ServiceError => Throws RequestError
  end.

Definition is_silent (r : listen_result) : bool :=
  match r with RecognizedText _ => false | _ => true end.

(** What [listen] prints for one answer of the recogniser. *)
Definition listened (r : reply) (o : list event) : list event :=
  match r with
  | Gives text =>
      Printed ("You said: " ++ text)
        :: Printed "Recognizing..." :: Printed "Listening..." :: o
  | Throws UnknownValueError =>
      Printed "Sorry, I didn't understand that."
        :: Printed "Recognizing..." :: Printed "Listening..." :: o
  | Throws RequestError =>
      Printed ("Sorry, I'm having trouble accessing the speech "
               ++ "recognition service.")
        :: Printed "Recognizing..." :: Printed "Listening..." :: o
  | Throws _ => Printed "Recognizing..." :: Printed "Listening..." :: o
  end.

(** The exception [listen] lets through, if any. *)
Definition fatal (r : reply) : option exn :=
  match r with
  | Gives _ | Throws UnknownValueError | Throws RequestError => None
  | Throws e => Some e
  end.

(** The text that counts as a part of the answer: [user_input] must be
    true, so neither [None] nor the empty text do. *)
Definition part_of (r : reply) : option string :=
  match r with
  | Gives text => if truthy text then Some text else None
  | Throws _ => None
  end.

Definition reminded (silence_count : Z) (o : list event) : list event :=
  if (silence_count + 1 =? 1)%Z
  then Said finished_prompt :: Printed finished_prompt :: o
  else o.

(** The voice loop read off the recogniser's script: the same steps as
    [voice_turn], by recursion on the answers still to come. *)
Fixpoint voice_run (parts : list string) (silence_count : Z)
    (script : list reply) (i : list string) (l : list reply)
    (o : list event) : Res (list string) :=
  if (silence_count <? max_silence)%Z then
    match script with
    | [] =>
        Pending
          (mkWorld i [] l
             (Printed "Recognizing..." :: Printed "Listening..." :: o))
    | r :: rest =>
        match fatal r with
        | Some e => Raise e (mkWorld i rest l (listened r o))
        | None =>
            match part_of r with
            | Some text =>
                voice_run (parts ++ [text]) 0 rest i l (listened r o)
            | None =>
                voice_run parts (silence_count + 1) rest i l
                  (reminded silence_count (listened r o))
            end
        end
    end
  else Ret parts (mkWorld i script l o).

Definition voice_hint : string :=
  "Please provide your answer. When you're finished, "
  ++ "remain silent for a moment.".

Definition voiced (r : Res (list string)) : Res string :=
  match r with
  | Ret parts w => Ret (voice_result parts) w
  | Raise e w => Raise e w
  | Pending w => Pending w
  | OutOfFuel => OutOfFuel
  end.

(** The parts accumulated from the answers that were consumed. *)
Definition parts_of (consumed : list reply) : list string :=
  flat_map (fun r => match part_of r with Some text => [text] | None => [] end)
    consumed.

(** How often [text] was said in a list of events. *)
Definition said_count (text : string) (o : list event) : nat :=
  List.length
    (filter (fun e => match e with Said t => String.eqb t text | _ => false end)
       o).

(** How often the silence counter, started at [silence_count], takes the
    value 1 while the answers [consumed] come in. *)
Fixpoint reaches_one (silence_count : Z) (consumed : list reply) : nat :=
  match consumed with
  | [] => 0
  | r :: rest =>
      match part_of r with
      | Some _ => reaches_one 0 rest
      | None =>
          (if (silence_count + 1 =? 1)%Z then 1 else 0)
          + reaches_one (silence_count + 1) rest
      end
  end.

(** ** The loop as the specification words it

    A silence counter from 0 with threshold 3; every recognised text is
    appended and resets the counter, every other result increments it; the
    loop stops once the counter reaches 3; the parts are joined by single
    spaces, with the fallback text when there are none. *)
Fixpoint described_loop (parts : list string) (silence : Z)
    (results : list listen_result)
  : option (list string * list listen_result) :=
  if (silence >=? 3)%Z then Some (parts, results)
  else
    match results with
    | [] => None
    | RecognizedText text :: rest => described_loop (parts ++ [text]) 0 rest
    | _ :: rest => described_loop parts (silence + 1) rest
    end.

Definition described_voice_answer (results : list listen_result)
  : option (string * list listen_result) :=
  match described_loop [] 0 results with
  | Some (parts, rest) =>
      Some (match parts with [] => no_answer | _ => join " " parts end, rest)
  | None => None
  end.

(** The answer that came back and the recogniser answers left unused. *)
Definition observed (r : Res string) : option (string * list reply) :=
  match r with
  | Ret answer w => Some (answer, mic w)
  | _ => None
  end.

Definition voice_as_described (results : list listen_result) : Prop :=
  forall i l o,
    observed (collect_voice_answer (mkWorld i (map heard results) l o))
    = option_map (fun ar => (fst ar, map heard (snd ar)))
        (described_voice_answer results).

(** ** Relations kept by a script *)

(** [keeps Rel m]: whatever the outcome of [m], the world it leaves is
    related by [Rel] to the world it started in. *)
Definition keeps (Rel : World -> World -> Prop) {A : Type} (m : M A)
  : Prop :=
  forall w,
    match m w with
    | Ret _ w' | Raise _ w' | Pending w' => Rel w w'
    | OutOfFuel => True
    end.

(** The chain invocations made so far, in order. *)
Definition invocation : Type := (chain * dict * string)%type.

Definition call_of (e : event) : list invocation :=
  match e with
  | Invoked c inputs completion => [(c, inputs, completion)]
  | _ => []
  end.

Definition invoked (w : World) : list invocation :=
  flat_map call_of (trace w).

(** [steady true]: no line is put back on the console and no chain is
    invoked; [steady false]: only the former. *)
Definition steady (quiet : bool) (w w' : World) : Prop :=
  List.length (stdin w') <= List.length (stdin w)
  /\ (quiet = true -> invoked w' = invoked w).

(** ** Fuel *)

Definition fueled {A : Type} (m : M A) : Prop := forall w, m w <> OutOfFuel.

(** ** Invocations and question numbers *)

(** The question numbers sent to the question chain, and the questions it
    gave back, in a list of invocations. *)
Definition number_of (call : invocation) : list Z :=
  match call with
  | (question_chain, inputs, _) =>
      match get "question_number" inputs with
      | Some (VInt n) => [n]
      | _ => []
      end
  | _ => []
  end.

Definition question_of (call : invocation) : list string :=
  match call with
  | (question_chain, _, completion) => [completion]
  | _ => []
  end.

Definition numbers_asked (w : World) : list Z :=
  flat_map number_of (invoked w).

Definition questions_generated (w : World) : list string :=
  flat_map question_of (invoked w).

(** [n, n+1, ..., n+k-1]. *)
Fixpoint count_from (n : Z) (k : nat) : list Z :=
  match k with
  | O => []
  | S k' => n :: count_from (n + 1) k'
  end.

(** ** Lines of a prompt *)

(** The number of newline characters of a text. *)
Fixpoint newlines (s : string) : nat :=
  match s with
  | EmptyString => 0
  | String c r => (if (code c =? 10)%N then 1 else 0) + newlines r
  end.

(** The newline characters of the fixed text of a template. *)
Fixpoint literal_newlines (t : template) : nat :=
  match t with
  | [] => 0
  | Lit text :: r => newlines text + literal_newlines r
  | Field _ :: r => literal_newlines r
  end.

(** One entry of the printed form of a dictionary. *)
Definition entry (kv : string * value) : string :=
  repr_str (fst kv) ++ ": " ++ repr (snd kv).

Definition is_atom (v : value) : bool :=
  match v with VDict _ => false | _ => true end.

(** ** Configuration *)

Definition count_prompt : string := "How many questions per round? ".

(** A line the count loop does not accept: not a number, or not above 0. *)
Definition rejected (line : string) : bool :=
  match int line with
  | Some n => negb (n >? 0)%Z
  | None => true
  end.

Definition complaint (line : string) : string :=
  match int line with
  | Some _ => "Please enter a positive number."
  | None => "Please enter a valid number."
  end.

(** The events of asking again for each rejected line. *)
Fixpoint retried (bad : list string) (o : list event) : list event :=
  match bad with
  | [] => o
  | line :: rest =>
      retried rest
        (Said (complaint line) :: Printed (complaint line)
           :: Prompted count_prompt :: o)
  end.

(** What [configure] has emitted before it asks for the count. *)
Definition greeted (o : list event) : list event :=
  let welcome := "Welcome to InterviewMate Practice System!" in
  let topic :=
    "Enter the job topic you want to practice for. For example, "
    ++ "Software Engineering, Marketing, or Data Science." in
  let voice :=
    "Would you like to use voice input for your answers? Say yes or no." in
  let count := "How many questions would you like to practice per round?" in
  Said count :: Printed count
    :: Prompted "Use voice input for answers? (yes/no): "
    :: Said voice :: Printed voice
    :: Prompted "Enter job topic: "
    :: Said topic :: Printed topic
    :: Said welcome :: Printed welcome :: o.


(** ** A small session *)

Definition demo_cfg : Config := mkConfig "Go" false 2.

Definition demo_world : World :=
  mkWorld ["a1"; ""; "a2"; ""; "no"] []
    [Gives "Q1"; Gives "F1"; Gives "Q2"; Gives "F2"] [].

(** ** Notions for the further properties *)

(** [same f]: the part [f] of the world is the same before and after. *)
Definition same {X : Type} (f : World -> X) (w w' : World) : Prop :=
  f w' = f w.

(** The texts said so far, latest first. *)
Definition said_texts (w : World) : list string :=
  flat_map (fun e => match e with Said text => [text] | _ => [] end) (out w).

(** The world an outcome leaves, when there is one. *)
Definition after {A : Type} (r : Res A) : option World :=
  match r with
  | Ret _ w | Raise _ w | Pending w => Some w
  | OutOfFuel => None
  end.

(** Every [Said] event comes right after the [Printed] event of the same
    text (the list is latest first). *)
Fixpoint announced (o : list event) : bool :=
  match o with
  | [] => true
  | Said text :: r =>
      match r with
      | Printed text' :: r' => String.eqb text text' && announced r'
      | _ => false
      end
  | _ :: r => announced r
  end.

Definition announcing (w w' : World) : Prop :=
  announced (out w) = true -> announced (out w') = true.

(** An answer of the recogniser that adds nothing to the spoken answer. *)
Definition quiet_reply (r : reply) : bool :=
  match part_of r with None => true | Some _ => false end.

(** A template with the same text put in every field. *)
Fixpoint fill (t : template) (text : string) : string :=
  match t with
  | [] => ""
  | Lit fixed :: r => fixed ++ fill r text
  | Field _ :: r => text ++ fill r text
  end.

(** One question of a session as it went: the question generated, the
    answer collected and the feedback generated. *)
Definition exchange : Type := (string * string * string)%type.

Definition asked (x : exchange) : string := fst (fst x).

(** The invocations a run of exchanges makes when it starts at question
    number [n] with the questions [prev] already asked. *)
Fixpoint calls_of (topic : string) (n : Z) (prev : list string)
    (xs : list exchange) : list invocation :=
  match xs with
  | [] => []
  | (question, answer, feedback) :: r =>
      (question_chain, question_inputs topic n prev, question)
        :: (feedback_chain, feedback_inputs topic question answer, feedback)
        :: calls_of topic (n + 1) (prev ++ [question]) r
  end.

(** The completions of the model a run of exchanges uses up. *)
Definition completions_of (xs : list exchange) : list reply :=
  flat_map (fun x => match x with
                     | (question, _, feedback) =>
                         [Gives question; Gives feedback]
                     end) xs.

(** A bullet line without its dash and blank. *)
Definition unbullet (line : string) : string :=
  match line with
  | String _ (String _ r) => r
  | _ => ""
  end.

(** ** The described loop with empty texts counted as silence

    As [described_loop], but a recognised text is appended and resets the
    counter only when it is not empty; an empty one increments the counter
    like a result without text. *)
Fixpoint amended_loop (parts : list string) (silence : Z)
    (results : list listen_result)
  : option (list string * list listen_result) :=
  if (silence >=? 3)%Z then Some (parts, results)
  else
    match results with
    | [] => None
    | RecognizedText text :: rest =>
        if String.eqb text ""
        then amended_loop parts (silence + 1) rest
        else amended_loop (parts ++ [text]) 0 rest
    | _ :: rest => amended_loop parts (silence + 1) rest
    end.

Definition amended_voice_answer (results : list listen_result)
  : option (string * list listen_result) :=
  match amended_loop [] 0 results with
  | Some (parts, rest) =>
      Some (match parts with [] => no_answer | _ => join " " parts end, rest)
  | None => None
  end.

(** The silence counter after the results [rs], started at [c]. *)
Fixpoint silence_after (c : Z) (rs : list listen_result) : Z :=
  match rs with
  | [] => c
  | RecognizedText text :: rest =>
      if String.eqb text "" then silence_after (c + 1) rest
      else silence_after 0 rest
  | _ :: rest => silence_after (c + 1) rest
  end.

(** How often the silence counter, started at [c], becomes 1 over the
    results [rs]. *)
Fixpoint reminders (c : Z) (rs : list listen_result) : nat :=
  match rs with
  | [] => 0
  | RecognizedText text :: rest =>
      if String.eqb text ""
      then (if (c + 1 =? 1)%Z then 1 else 0) + reminders (c + 1) rest
      else reminders 0 rest
  | _ :: rest => (if (c + 1 =? 1)%Z then 1 else 0) + reminders (c + 1) rest
  end.

(** The recognised texts that are not empty, in order. *)
Definition texts_of (rs : list listen_result) : list string :=
  flat_map (fun r => match r with
                     | RecognizedText text =>
                         if String.eqb text "" then [] else [text]
                     | _ => []
                     end) rs.

(** The fallback text is the answer exactly when no part was accumulated,
    as the specification has it. *)
Definition fallback_exactly_when_empty (script : list reply) : Prop :=
  forall i l o answer w',
    collect_voice_answer (mkWorld i script l o) = Ret answer w' ->
    forall consumed,
      script = (consumed ++ mic w')%list ->
      (answer = no_answer <-> parts_of consumed = []).

(** What [get_user_answer] gives on the console lines [i] and the
    recogniser answers [m], with what it leaves of the two. *)
Definition collected (by_voice : bool) (i : list string) (m : list reply)
  : option (string * (list string * list reply)) :=
  match get_user_answer by_voice (mkWorld i m [] []) with
  | Ret answer w => Some (answer, (stdin w, mic w))
  | _ => None
  end.

(** The answers of the exchanges [xs] are the ones [get_user_answer] gives
    one after the other, from the console lines [i] and the recogniser
    answers [m] on; the result is what is left of the two. *)
Fixpoint answers_from (by_voice : bool) (i : list string) (m : list reply)
    (xs : list exchange) : option (list string * list reply) :=
  match xs with
  | [] => Some (i, m)
  | (_, answer, _) :: rest =>
      match collected by_voice i m with
      | Some (given, (i', m')) =>
          if String.eqb given answer then answers_from by_voice i' m' rest
          else None
      | None => None
      end
  end.

(** The rounds of a practice on the console lines [i] and the recogniser
    answers [m]: the answers of each round are collected, then a line is
    read that means yes after every round but the last. *)
Fixpoint rounds_from (by_voice : bool) (i : list string) (m : list reply)
    (rounds : list (list exchange)) : option (list string * list reply) :=
  match rounds with
  | [] => None
  | xs :: more =>
      match answers_from by_voice i m xs with
      | Some (line :: i', m') =>
          match more with
          | [] => if says_yes line then None else Some (i', m')
          | _ => if says_yes line then rounds_from by_voice i' m' more
                 else None
          end
      | _ => None
      end
  end.

(* ------------------------------------------------------------------ *)
(** * Checks of the built-ins on examples *)

Example int_examples :
  map Py.int ["-1"; "0"; "abc"; "5"; " 5 "; "+5"; "1_0"; "1__0"; "_1"; "1_";
              "- 5"; ""; "007"]
  = [Some (-1)%Z; Some 0%Z; None; Some 5%Z; Some 5%Z; Some 5%Z; Some 10%Z;
     None; None; None; None; None; Some 7%Z].
Proof. reflexivity. Qed.

Example int_digit_limit :
  Py.int (Py.times "1" 4301) = None
  /\ Py.int (Py.times "0" 4301) = None
  /\ Py.int ("-" ++ Py.times "1" 4300) <> None
  /\ Py.int (Py.times "1_" 4299 ++ "1") <> None.
Proof. repeat split; vm_compute; try reflexivity; discriminate. Qed.

Example strip_examples :
  map Py.strip ["  "; ""; " a b  "; "x"] = [""; ""; "a b"; "x"].
Proof. reflexivity. Qed.

Example repr_example :
  Py.repr (Py.VDict [("k", Py.VStr ("it's" ++ Py.nl)); ("n", Py.VInt 12)])
  = "{'k': " ++ Py.dquote ++ "it's\n" ++ Py.dquote ++ ", 'n': 12}".
Proof. reflexivity. Qed.

(* ------------------------------------------------------------------ *)
(** * Facts about the built-ins *)

Section Builtins.









Lemma append_empty_r (s : string) : s ++ "" = s.
Proof. induction s as [|c r IH]; simpl; [reflexivity | now rewrite IH]. Qed.

Lemma join_cons (sep x : string) (xs : list string) :
  join sep (x :: xs)
  = x ++ match xs with [] => "" | _ => sep ++ join sep xs end.
Proof. destruct xs; simpl; [now rewrite append_empty_r | reflexivity]. Qed.


End Builtins.

(* ------------------------------------------------------------------ *)
(** * Loops and fuel *)

Section Loops.

Context {S R : Type}.
Variable body : S -> M (ctl S R).

Lemma loop_step (n : nat) (s : S) (w : World) :
  loop (Datatypes.S n) body s w
  = match body s w with
    | Ret (Continue s') w' => loop n body s' w'
    | Ret (Break r) w' => Ret r w'
    | Raise e w' => Raise e w'
    | Pending w' => Pending w'
    | OutOfFuel => OutOfFuel
    end.
Proof.
  simpl. unfold bind. destruct (body s w) as [[s'|r] w'| | |]; reflexivity.
Qed.


End Loops.

(* ------------------------------------------------------------------ *)
(** * The text strategy *)

Section TextStrategy.

Lemma text_loop_run (lines : list string) :
  forall fuel answer_lines m l o,
    List.length lines < fuel ->
    loop fuel text_turn answer_lines (mkWorld lines m l o)
    = text_run answer_lines lines m l o.
Proof.
  induction lines as [|line rest IH]; intros fuel acc m l o Hf;
    (destruct fuel as [|fuel]; [simpl in Hf; lia|]); rewrite loop_step.
  - reflexivity.
  - simpl in Hf. unfold text_turn, bind, input. simpl.
    fold (blank line). destruct (blank line).
    + destruct acc; simpl; [apply IH; lia | reflexivity].
    + simpl. apply IH. lia.
Qed.

Lemma collect_text_answer_run (lines : list string) m l o :
  collect_text_answer (mkWorld lines m l o)
  = joined (text_run [] lines m l (Printed typing_hint :: o)).
Proof.
  unfold collect_text_answer, get_user_answer, bind, print, emit, log.
  cbn [stdin mic llm out].
  rewrite text_loop_run by lia.
  fold typing_hint.
  destruct (text_run [] lines m l (Printed typing_hint :: o)); reflexivity.
Qed.

Lemma repeat_shift {A} (x : A) (n : nat) (o : list A) :
  (repeat x n ++ x :: o = x :: repeat x n ++ o)%list.
Proof. induction n as [|n IH]; simpl; [reflexivity | now rewrite IH]. Qed.

Lemma text_run_blanks (blanks : list string) :
  forall lines m l o,
    Forall (fun x => blank x = true) blanks ->
    text_run [] (blanks ++ lines) m l o
    = text_run [] lines m l
        (repeat (Prompted "") (List.length blanks) ++ o).
Proof.
  induction blanks as [|b r IH]; intros lines m l o H.
  - reflexivity.
  - inversion H as [|? ? Hb Hr]; subst. simpl. rewrite Hb.
    rewrite IH by assumption. now rewrite repeat_shift.
Qed.

Lemma text_run_body (body : list string) :
  forall acc b rest m l o,
    Forall (fun x => blank x = false) body ->
    (acc ++ body)%list <> [] ->
    blank b = true ->
    text_run acc (body ++ b :: rest) m l o
    = Ret (acc ++ body)%list
        (mkWorld rest m l
           (repeat (Prompted "") (Datatypes.S (List.length body)) ++ o)).
Proof.
  induction body as [|x r IH]; intros acc b rest m l o H Hne Hb.
  - simpl. rewrite Hb. rewrite app_nil_r in *.
    destruct acc; [congruence | reflexivity].
  - inversion H as [|? ? Hx Hr]; subst. simpl text_run. rewrite Hx.
    rewrite IH; try assumption.
    + rewrite <- app_assoc. simpl. now rewrite repeat_shift.
    + rewrite <- app_assoc. simpl. destruct acc; discriminate.
Qed.

(** What a returned answer is made of: the lines read are [consumed]
    followed by one blank line, and the answer lines are the non-blank
    ones among them, as they were typed. *)
Lemma text_run_returns (lines : list string) :
  forall acc m l o a w',
    text_run acc lines m l o = Ret a w' ->
    exists consumed b,
      lines = (consumed ++ b :: stdin w')%list
      /\ blank b = true
      /\ a = (acc ++ filter (fun x => negb (blank x)) consumed)%list
      /\ a <> []
      /\ mic w' = m /\ llm w' = l.
Proof.
  induction lines as [|line rest IH]; intros acc m l o a w' H; simpl in H.
  - discriminate.
  - destruct (blank line) eqn:E.
    + destruct acc as [|x acc].
      * apply IH in H. destruct H as (c & b & -> & Hb & -> & Hne & Hm).
        exists (line :: c), b. simpl. rewrite E. simpl. auto.
      * injection H as <- <-. exists [], line. simpl.
        rewrite app_nil_r. repeat split; auto. discriminate.
    + apply IH in H. destruct H as (c & b & -> & Hb & -> & Hne & Hm).
      exists (line :: c), b. simpl. rewrite E. simpl.
      rewrite <- app_assoc in *. simpl in *. auto.
Qed.

Lemma text_run_ends (lines : list string) :
  forall acc m l o,
    acc <> [] ->
    Exists (fun x => blank x = true) lines ->
    exists a w', text_run acc lines m l o = Ret a w'.
Proof.
  induction lines as [|line rest IH]; intros acc m l o Hne Hex.
  - inversion Hex.
  - simpl. destruct (blank line) eqn:E.
    + destruct acc; [congruence | eauto].
    + inversion Hex as [? ? Hb | ? ? Hr]; subst; [congruence|].
      apply IH; [destruct acc; discriminate | assumption].
Qed.

Lemma text_run_content_then_blank (pre : list string) :
  forall acc x mid b post m l o,
    blank x = false -> blank b = true ->
    exists a w',
      text_run acc (pre ++ x :: mid ++ b :: post) m l o = Ret a w'.
Proof.
  induction pre as [|p pre IH]; intros acc x mid b post m l o Hx Hb.
  - simpl. rewrite Hx. apply text_run_ends.
    + destruct acc; discriminate.
    + apply Exists_app. right. now constructor.
  - simpl. destruct (blank p).
    + destruct acc; [now apply IH | eauto].
    + now apply IH.
Qed.

(** Leading blank lines, then content, then a blank line: the loop gives
    the content and has read up to that blank line. *)
Lemma text_run_stops (blanks body : list string) (b : string)
    (rest : list string) (m l : list reply) (o : list event) :
  forallb blank blanks = true ->
  forallb (fun x => negb (blank x)) body = true ->
  body <> [] ->
  blank b = true ->
  text_run [] (blanks ++ body ++ b :: rest) m l o
  = Ret body
      (mkWorld rest m l
         (repeat (Prompted "") (Datatypes.S (List.length body))
            ++ repeat (Prompted "") (List.length blanks) ++ o)).
Proof.
  intros Hblanks Hbody Hne Hb.
  rewrite text_run_blanks
    by (apply Forall_forall; apply forallb_forall; exact Hblanks).
  rewrite text_run_body; auto.
  apply Forall_forall. intros x Hx. apply negb_true_iff.
  apply (proj1 (forallb_forall _ _) Hbody x Hx).
Qed.

End TextStrategy.

(* ------------------------------------------------------------------ *)
(** * The voice strategy *)

Section VoiceStrategy.

Lemma voice_loop_run (script : list reply) :
  forall fuel parts c i l o,
    List.length script < fuel ->
    loop fuel voice_turn (parts, c) (mkWorld i script l o)
    = voice_run parts c script i l o.
Proof.
  induction script as [|r rest IH]; intros fuel parts c i l o Hf;
    (destruct fuel as [|fuel]; [simpl in Hf; lia|]); rewrite loop_step;
    unfold voice_turn; simpl voice_run;
    destruct (c <? max_silence)%Z; try reflexivity.
  simpl in Hf.
  assert (Hlt : List.length rest < fuel) by lia.
  destruct r as [text|e].
  - unfold bind, listen, try, print, emit, recognize_google, log. simpl.
    destruct (truthy text).
    + apply IH, Hlt.
    + unfold silence, reminded, bind, speak, print, emit, log, bind.
      destruct (c + 1 =? 1)%Z; simpl; apply IH, Hlt.
  - destruct e; unfold bind, listen, try, print, emit, recognize_google, log;
      simpl; try reflexivity;
      unfold silence, reminded, bind, speak, print, emit, log, bind;
      destruct (c + 1 =? 1)%Z; simpl; apply IH, Hlt.
Qed.

Lemma collect_voice_answer_run (script : list reply) i l o :
  collect_voice_answer (mkWorld i script l o)
  = voiced (voice_run [] 0 script i l
              (Said voice_hint :: Printed voice_hint :: o)).
Proof.
  unfold collect_voice_answer, get_user_answer, speak, bind, print, emit, log.
  cbn [stdin mic llm out].
  rewrite voice_loop_run by lia.
  fold voice_hint.
  destruct (voice_run [] 0 script i l _); reflexivity.
Qed.

Lemma said_count_listened (r : reply) (o : list event) :
  said_count finished_prompt (listened r o) = said_count finished_prompt o.
Proof. destruct r as [text|[]]; reflexivity. Qed.

Lemma said_count_reminded (c : Z) (o : list event) :
  said_count finished_prompt (reminded c o)
  = (if (c + 1 =? 1)%Z then 1 else 0) + said_count finished_prompt o.
Proof. unfold reminded. destruct (c + 1 =? 1)%Z; reflexivity. Qed.

Lemma voice_run_returns (script : list reply) :
  forall parts c i l o a w',
    voice_run parts c script i l o = Ret a w' ->
    exists consumed,
      script = (consumed ++ mic w')%list
      /\ a = (parts ++ parts_of consumed)%list
      /\ stdin w' = i /\ llm w' = l
      /\ said_count finished_prompt (out w')
         = reaches_one c consumed + said_count finished_prompt o.
Proof.
  induction script as [|r rest IH]; intros parts c i l o a w' H;
    simpl in H; destruct (c <? max_silence)%Z.
  - discriminate.
  - injection H as <- <-. exists []. simpl. now rewrite app_nil_r.
  - destruct (fatal r); [discriminate|].
    destruct (part_of r) as [text|] eqn:E.
    + apply IH in H. destruct H as (k & -> & -> & Hi & Hl & Hs).
      exists (r :: k). unfold parts_of in *. simpl. rewrite E.
      rewrite <- app_assoc. repeat split; auto.
      now rewrite Hs, said_count_listened.
    + apply IH in H. destruct H as (k & -> & -> & Hi & Hl & Hs).
      exists (r :: k). unfold parts_of in *. simpl. rewrite E.
      repeat split; auto.
      rewrite Hs, said_count_reminded, said_count_listened. lia.
  - injection H as <- <-. exists []. simpl. now rewrite app_nil_r.
Qed.

Lemma voice_run_stops (script : list reply) parts c i l o :
  (max_silence <= c)%Z ->
  voice_run parts c script i l o = Ret parts (mkWorld i script l o).
Proof.
  intros H. apply Z.ltb_ge in H.
  destruct script; simpl; rewrite H; reflexivity.
Qed.

(** On the three results of [listen()] nothing is raised. *)
Lemma voice_run_no_raise (results : list listen_result) :
  forall parts c i l o,
    match voice_run parts c (map heard results) i l o with
    | Raise _ _ | OutOfFuel => False
    | _ => True
    end.
Proof.
  induction results as [|r rest IH]; intros parts c i l o; simpl;
    destruct (c <? max_silence)%Z; trivial.
  destruct r as [text| |]; simpl; try apply IH.
  destruct (truthy text); apply IH.
Qed.

Lemma voice_run_silent_tail (silents : list listen_result) :
  forall parts c i l o,
    forallb is_silent silents = true ->
    (3 <= c + Z.of_nat (List.length silents))%Z ->
    exists a w', voice_run parts c (map heard silents) i l o = Ret a w'.
Proof.
  induction silents as [|s rest IH]; intros parts c i l o Hs Hc; simpl;
    destruct (Z.ltb_spec c max_silence) as [Hlt|Hge]; eauto.
  - unfold max_silence in Hlt. simpl in Hc. lia.
  - simpl in Hs. apply andb_prop in Hs as [Hs Hr].
    destruct s; try discriminate; simpl; apply IH; auto;
      simpl List.length in Hc; lia.
Qed.

Lemma voice_run_ends (results silents : list listen_result) :
  forall parts c i l o,
    forallb is_silent silents = true ->
    3 <= List.length silents ->
    (0 <= c)%Z ->
    exists a w',
      voice_run parts c (map heard (results ++ silents)) i l o = Ret a w'.
Proof.
  induction results as [|r rest IH]; intros parts c i l o Hs Hn Hc.
  - simpl. apply voice_run_silent_tail; [assumption | lia].
  - simpl. destruct (c <? max_silence)%Z; eauto.
    destruct r as [text| |]; simpl; try (apply IH; auto; lia).
    destruct (truthy text); apply IH; auto; lia.
Qed.

End VoiceStrategy.

Section VoiceRevised.

Lemma truthy_not_empty (text : string) :
  truthy text = negb (String.eqb text "").
Proof. destruct text; reflexivity. Qed.

Lemma voice_run_amended (results : list listen_result) :
  forall parts c i l o,
    match voice_run parts c (map heard results) i l o,
          amended_loop parts c results with
    | Ret p w, Some (p', rest) => p = p' /\ mic w = map heard rest
    | Pending _, None => True
    | _, _ => False
    end.
Proof.
  induction results as [|r rest IH]; intros parts c i l o; simpl;
    rewrite Z.geb_leb, (Z.ltb_antisym max_silence c);
    change max_silence with 3%Z; destruct (3 <=? c)%Z; simpl; auto.
  destruct r as [text| |]; simpl; try apply IH.
  rewrite truthy_not_empty. destruct (String.eqb text ""); simpl; apply IH.
Qed.

Lemma silence_after_cons c r rs :
  silence_after c (r :: rs) = silence_after (silence_after c [r]) rs.
Proof. destruct r as [text| |]; simpl; try reflexivity.
  destruct (String.eqb text ""); reflexivity. Qed.

Lemma reminders_cons c r rs :
  reminders c (r :: rs)
  = reminders c [r] + reminders (silence_after c [r]) rs.
Proof.
  destruct r as [text| |]; simpl; try lia.
  destruct (String.eqb text ""); simpl; lia.
Qed.

Lemma texts_of_cons r rs :
  texts_of (r :: rs) = (texts_of [r] ++ texts_of rs)%list.
Proof. unfold texts_of. simpl. now rewrite app_nil_r. Qed.

Lemma silence_after_one c r :
  (c < 3)%Z -> (silence_after c [r] <= 3)%Z.
Proof.
  intros H. destruct r as [text| |]; simpl; try lia.
  destruct (String.eqb text ""); lia.
Qed.

(** One turn of the loop on one result of [listen()]. *)
Lemma voice_run_step parts c r script i l o :
  (c < 3)%Z ->
  exists o',
    voice_run parts c (heard r :: script) i l o
    = voice_run (parts ++ texts_of [r]) (silence_after c [r]) script i l o'
    /\ said_count finished_prompt o'
       = reminders c [r] + said_count finished_prompt o.
Proof.
  intros H. apply Z.ltb_lt in H. unfold texts_of.
  destruct r as [text| |]; simpl; change max_silence with 3%Z; rewrite H.
  - rewrite truthy_not_empty. destruct (String.eqb text ""); simpl.
    + rewrite app_nil_r. eexists. split; [reflexivity|].
      rewrite said_count_reminded. unfold said_count. simpl. lia.
    + eexists. split; reflexivity.
  - rewrite app_nil_r. eexists. split; [reflexivity|].
    rewrite said_count_reminded. unfold said_count. simpl. lia.
  - rewrite app_nil_r. eexists. split; [reflexivity|].
    rewrite said_count_reminded. unfold said_count. simpl. lia.
Qed.

(** The whole course of the voice loop on results of [listen()]. *)
Lemma voice_run_course (results : list listen_result) :
  forall parts c i l o,
    (c <= 3)%Z ->
    match voice_run parts c (map heard results) i l o with
    | Ret p w' =>
        exists used rest,
          results = (used ++ rest)%list
          /\ mic w' = map heard rest
          /\ stdin w' = i /\ llm w' = l
          /\ p = (parts ++ texts_of used)%list
          /\ silence_after c used = 3%Z
          /\ (forall before more,
                 used = (before ++ more)%list -> more <> [] ->
                 (silence_after c before < 3)%Z)
          /\ said_count finished_prompt (out w')
             = reminders c used + said_count finished_prompt o
    | Pending w' =>
        (forall before more,
            results = (before ++ more)%list ->
            (silence_after c before < 3)%Z)
        /\ mic w' = []
        /\ said_count finished_prompt (out w')
           = reminders c results + said_count finished_prompt o
    | _ => False
    end.
Proof.
  induction results as [|r rest IH]; intros parts c i l o Hc;
    destruct (Z.lt_ge_cases c 3) as [Hlt|Hge].
  - simpl. apply Z.ltb_lt in Hlt as Hb. change max_silence with 3%Z.
    rewrite Hb. repeat split; auto.
    intros before more E. destruct before; [simpl; lia | discriminate].
  - rewrite voice_run_stops by (unfold max_silence; lia).
    exists [], []. simpl. rewrite app_nil_r.
    repeat split; auto; try lia.
    intros before more E Hne.
    destruct before; [simpl in E; congruence | discriminate].
  - change (map heard (r :: rest)) with (heard r :: map heard rest).
    destruct (voice_run_step parts c r (map heard rest) i l o Hlt)
      as (o' & E & Ho).
    rewrite E.
    specialize (IH (parts ++ texts_of [r])%list (silence_after c [r]) i l o'
                  (silence_after_one c r Hlt)).
    destruct (voice_run _ _ (map heard rest) i l o') as [p w'|e w'|w'|];
      auto.
    + destruct IH as (used & rest0 & -> & Hm & Hi & Hl & -> & H3 & Hp & Hd).
      exists (r :: used), rest0.
      rewrite silence_after_cons, reminders_cons.
      repeat split; auto.
      * now rewrite (texts_of_cons r used), app_assoc.
      * intros before more E' Hne. destruct before as [|b before].
        -- simpl. lia.
        -- simpl in E'. injection E' as <- E'.
           rewrite silence_after_cons. now apply (Hp before more).
      * rewrite Hd, Ho. lia.
    + destruct IH as (Hp & Hm & Hd). rewrite reminders_cons.
      repeat split; auto.
      * intros before more E'. destruct before as [|b before].
        -- simpl. lia.
        -- simpl in E'. injection E' as <- E'.
           rewrite silence_after_cons. now apply (Hp before more).
      * rewrite Hd, Ho. lia.
  - rewrite voice_run_stops by (unfold max_silence; lia).
    exists [], (r :: rest). simpl. rewrite app_nil_r.
    repeat split; auto; try lia.
    intros before more E Hne.
    destruct before; [simpl in E; congruence | discriminate].
Qed.

End VoiceRevised.

(* ------------------------------------------------------------------ *)
(** * What a piece of the script does to the world *)

Section Frames.

(** A relation between the world before and the world after that is
    reflexive and transitive is kept by the combinators of the monad. *)
Variable Rel : World -> World -> Prop.
Hypothesis Rel_refl : forall w, Rel w w.
Hypothesis Rel_trans : forall a b c, Rel a b -> Rel b c -> Rel a c.

Lemma keeps_ret {A} (a : A) : keeps Rel (ret a).
Proof. intros w. apply Rel_refl. Qed.

Lemma keeps_raise {A} (e : exn) : keeps Rel (@raise A e).
Proof. intros w. apply Rel_refl. Qed.

Lemma keeps_bind {A B} (m : M A) (f : A -> M B) :
  keeps Rel m -> (forall a, keeps Rel (f a)) -> keeps Rel (bind m f).
Proof.
  intros Hm Hf w. unfold bind. specialize (Hm w).
  destruct (m w) as [a w1|e w1|w1|]; auto.
  specialize (Hf a w1). destruct (f a w1); eauto.
Qed.

Lemma keeps_try {A} (m : M A) (h : exn -> M A) :
  keeps Rel m -> (forall e, keeps Rel (h e)) -> keeps Rel (try m h).
Proof.
  intros Hm Hh w. unfold try. specialize (Hm w).
  destruct (m w) as [a w1|e w1|w1|]; auto.
  specialize (Hh e w1). destruct (h e w1); eauto.
Qed.

Lemma keeps_loop {S R} (body : S -> M (ctl S R)) :
  (forall s, keeps Rel (body s)) -> forall fuel s, keeps Rel (loop fuel body s).
Proof.
  intros Hb fuel. induction fuel as [|n IH]; intros s.
  - intros w. exact I.
  - simpl. apply keeps_bind; [apply Hb|].
    intros [s'|r]; [apply IH | apply keeps_ret].
Qed.

Lemma keeps_fueled {A} (fuel : World -> nat) (m : nat -> M A) :
  (forall n, keeps Rel (m n)) -> keeps Rel (fun w => m (fuel w) w).
Proof. intros H w. apply (H (fuel w) w). Qed.

Lemma keeps_for_range {S} (body : S -> M S) :
  (forall s, keeps Rel (body s)) -> forall n s, keeps Rel (for_range n body s).
Proof.
  intros Hb n. induction n as [|n IH]; intros s; simpl.
  - apply keeps_ret.
  - apply keeps_bind; [apply Hb | apply IH].
Qed.

End Frames.

Lemma bind_ret {A B} (m : M A) (f : A -> M B) (w w' : World) (b : B) :
  bind m f w = Ret b w' ->
  exists a w1, m w = Ret a w1 /\ f a w1 = Ret b w'.
Proof.
  unfold bind. destruct (m w) as [a w1| | |]; try discriminate. eauto.
Qed.

Lemma keeps_returned {A} (Rel : World -> World -> Prop) (m : M A) w a w' :
  keeps Rel m -> m w = Ret a w' -> Rel w w'.
Proof. intros H E. specialize (H w). now rewrite E in H. Qed.

Section Steady.

Lemma steady_refl (q : bool) (w : World) : steady q w w.
Proof. split; auto. Qed.

Lemma steady_trans (q : bool) (a b c : World) :
  steady q a b -> steady q b c -> steady q a c.
Proof.
  intros [H1 H2] [H3 H4]. split; [lia|].
  intros E. now rewrite H4, H2.
Qed.

Lemma steady_weaken (q : bool) (a b : World) : steady true a b -> steady q a b.
Proof. intros [H1 H2]. split; auto. Qed.

Lemma invoked_log (e : event) (w : World) :
  invoked (log e w) = (invoked w ++ call_of e)%list.
Proof.
  unfold invoked, trace, log. simpl.
  rewrite flat_map_app. simpl. now rewrite app_nil_r.
Qed.

Lemma invoked_out (i i' : list string) (m m' l l' : list reply) o :
  invoked (mkWorld i m l o) = invoked (mkWorld i' m' l' o).
Proof. reflexivity. Qed.

Lemma keeps_weaken {A} (q : bool) (m : M A) :
  keeps (steady true) m -> keeps (steady q) m.
Proof.
  intros H w. specialize (H w).
  destruct (m w); auto using steady_weaken.
Qed.

Lemma steady_print (q : bool) (text : string) : keeps (steady q) (print text).
Proof.
  intros w. simpl. split; auto. intros _. rewrite invoked_log.
  apply app_nil_r.
Qed.

Lemma steady_said (q : bool) (text : string) :
  keeps (steady q) (emit (Said text)).
Proof.
  intros w. simpl. split; auto. intros _. rewrite invoked_log.
  apply app_nil_r.
Qed.

Lemma steady_invoked c inputs completion :
  keeps (steady false) (emit (Invoked c inputs completion)).
Proof. intros w. simpl. split; auto. discriminate. Qed.

Lemma steady_input (q : bool) (prompt : string) :
  keeps (steady q) (input prompt).
Proof.
  intros w. unfold input. destruct (stdin w) as [|line rest] eqn:E.
  - split; [simpl; lia|]. intros _. rewrite invoked_log. apply app_nil_r.
  - split; [simpl; rewrite E; simpl; lia|]. intros _.
    change (invoked (log (Prompted prompt) w) = invoked w).
    rewrite invoked_log. apply app_nil_r.
Qed.

Lemma steady_recognize (q : bool) : keeps (steady q) recognize_google.
Proof.
  intros w. unfold recognize_google.
  destruct (mic w) as [|[text|e] rest]; split; simpl; auto.
Qed.

Lemma steady_complete (q : bool) : keeps (steady q) complete.
Proof.
  intros w. unfold complete.
  destruct (llm w) as [|[text|e] rest]; split; simpl; auto.
Qed.

End Steady.

Create HintDb frame.
#[export] Hint Resolve steady_refl steady_print steady_said steady_invoked
  steady_input steady_recognize steady_complete : frame.
#[export] Hint Resolve steady_trans : frame.

Ltac frame :=
  repeat
    match goal with
    | |- keeps _ (ret _) => apply keeps_ret
    | |- keeps _ (raise _) => apply keeps_raise
    | |- keeps _ (bind _ _) => apply keeps_bind
    | |- keeps _ (try _ _) => apply keeps_try
    | |- keeps _ (loop _ _ _) => apply keeps_loop
    | |- keeps _ (for_range _ _ _) => apply keeps_for_range
    | |- keeps _ (fun w => loop _ _ _ w) =>
        apply (keeps_fueled _ _ (fun n => loop n _ _))
    | |- keeps _ (if ?b then _ else _) => destruct b
    | |- keeps _ (match ?x with _ => _ end) => destruct x
    | |- keeps _ (let '(_, _) := ?x in _) => destruct x
    | |- forall _, _ => intro
    | |- steady _ _ _ => solve [eauto with frame]
    | |- keeps _ _ => solve [auto with frame]
    end.

Section SteadyScript.

Lemma steady_speak q text : keeps (steady q) (speak text).
Proof. unfold speak. frame. Qed.

Lemma steady_listen q : keeps (steady q) listen.
Proof. unfold listen. frame. Qed.

Lemma steady_get_user_answer q b : keeps (steady q) (get_user_answer b).
Proof.
  unfold get_user_answer, voice_turn, silence, text_turn.
  pose proof steady_speak. pose proof steady_listen. frame.
Qed.

Lemma steady_invoke c inputs : keeps (steady false) (invoke c inputs).
Proof. unfold invoke. frame. Qed.

Lemma steady_one_question cfg st : keeps (steady false) (one_question cfg st).
Proof.
  unfold one_question.
  pose proof steady_speak. pose proof steady_invoke.
  pose proof (steady_get_user_answer false). frame.
Qed.

Lemma steady_run_round cfg st : keeps (steady false) (run_round cfg st).
Proof. unfold run_round. pose proof steady_one_question. frame. Qed.

Lemma steady_round_decision q : keeps (steady q) round_decision.
Proof. unfold round_decision. pose proof steady_speak. frame. Qed.

End SteadyScript.

(* ------------------------------------------------------------------ *)
(** * The fuel of the loops is enough *)

Section Fuel.

Lemma fueled_ret {A} (a : A) : fueled (ret a).
Proof. intros w. discriminate. Qed.

Lemma fueled_bind {A B} (m : M A) (f : A -> M B) :
  fueled m -> (forall a, fueled (f a)) -> fueled (bind m f).
Proof.
  intros Hm Hf w. unfold bind. specialize (Hm w).
  destruct (m w) as [a w1| | |]; try discriminate; [apply Hf | congruence].
Qed.

Lemma fueled_for_range {S} (body : S -> M S) :
  (forall s, fueled (body s)) -> forall n s, fueled (for_range n body s).
Proof.
  intros Hb n. induction n as [|n IH]; intros s; simpl.
  - apply fueled_ret.
  - apply fueled_bind; [apply Hb | apply IH].
Qed.

(** A loop whose turns use up some measure of the world has enough fuel
    as soon as the fuel exceeds the measure. *)
Lemma loop_fueled {S R} (measure : World -> nat) (body : S -> M (ctl S R)) :
  (forall s, fueled (body s)) ->
  (forall s w s' w',
      body s w = Ret (Continue s') w' -> measure w' < measure w) ->
  forall fuel s w, measure w < fuel -> loop fuel body s w <> OutOfFuel.
Proof.
  intros Hb Hdec fuel. induction fuel as [|n IH]; intros s w Hlt; [lia|].
  rewrite loop_step. specialize (Hb s w).
  destruct (body s w) as [[s'|r] w'| | |] eqn:E; try discriminate.
  - apply IH. apply Hdec in E. lia.
  - congruence.
Qed.

Lemma fueled_print text : fueled (print text).
Proof. intros w. discriminate. Qed.

Lemma fueled_speak text : fueled (speak text).
Proof. intros w. discriminate. Qed.

Lemma fueled_input prompt : fueled (input prompt).
Proof. intros w. unfold input. destruct (stdin w); discriminate. Qed.

Lemma fueled_invoke c inputs : fueled (invoke c inputs).
Proof.
  intros w. unfold invoke, bind, complete, raise.
  destruct (prompt_of c inputs); [|discriminate].
  destruct (llm w) as [|[text|e] rest]; discriminate.
Qed.

Ltac enough_fuel :=
  repeat first
    [ apply fueled_ret | apply fueled_print | apply fueled_speak
    | apply fueled_input | apply fueled_invoke
    | assumption
    | cbv zeta; apply fueled_bind; [|intros ?] ].

Lemma text_run_fueled (lines : list string) :
  forall acc m l o, text_run acc lines m l o <> OutOfFuel.
Proof.
  induction lines as [|line rest IH]; intros acc m l o; simpl.
  - discriminate.
  - destruct (blank line); [destruct acc|]; auto. discriminate.
Qed.

Lemma voice_run_fueled (script : list reply) :
  forall parts c i l o, voice_run parts c script i l o <> OutOfFuel.
Proof.
  induction script as [|r rest IH]; intros parts c i l o; simpl;
    destruct (c <? max_silence)%Z; try discriminate.
  destruct (fatal r); [discriminate|]. destruct (part_of r); auto.
Qed.

Lemma fueled_get_user_answer b : fueled (get_user_answer b).
Proof.
  intros [i m l o]. destruct b.
  - change (get_user_answer true) with collect_voice_answer.
    rewrite collect_voice_answer_run.
    pose proof (voice_run_fueled m [] 0%Z i l
                  (Said voice_hint :: Printed voice_hint :: o)) as H.
    destruct (voice_run _ _ _ _ _ _); try discriminate. congruence.
  - change (get_user_answer false) with collect_text_answer.
    rewrite collect_text_answer_run.
    pose proof (text_run_fueled i [] m l (Printed typing_hint :: o)) as H.
    destruct (text_run _ _ _ _ _); try discriminate. congruence.
Qed.

Lemma fueled_one_question cfg st : fueled (one_question cfg st).
Proof.
  destruct st as [n prev]. unfold one_question.
  pose proof (fueled_get_user_answer (use_voice cfg)). enough_fuel.
Qed.

Lemma fueled_run_round cfg st : fueled (run_round cfg st).
Proof. apply fueled_for_range. apply fueled_one_question. Qed.

Lemma fueled_round_decision : fueled round_decision.
Proof.
  unfold round_decision. enough_fuel.
Qed.

Lemma fueled_practice_turn cfg st : fueled (practice_turn cfg st).
Proof.
  destruct st as [[] p]; simpl; [|apply fueled_ret].
  apply fueled_bind; [apply fueled_run_round | intros p1].
  apply fueled_bind; [apply fueled_round_decision | intros b].
  apply fueled_ret.
Qed.

Lemma input_returns prompt w line w' :
  input prompt w = Ret line w' ->
  stdin w = line :: stdin w'
  /\ w' = mkWorld (stdin w') (mic w) (llm w) (Prompted prompt :: out w).
Proof.
  unfold input. destruct (stdin w) as [|x rest]; [discriminate|].
  intros H. injection H as -> <-. auto.
Qed.

Lemma round_decision_returns w b w' :
  round_decision w = Ret b w' ->
  exists line,
    stdin w = line :: stdin w'
    /\ b = says_yes line
    /\ w' = mkWorld (stdin w') (mic w) (llm w)
              (Prompted continue_prompt :: Said continue_question
                 :: Printed continue_question :: out w).
Proof.
  unfold round_decision, speak, print, emit. intros H.
  apply bind_ret in H. destruct H as (u & w1 & H1 & H).
  apply bind_ret in H. destruct H as (line & w2 & H2 & H).
  unfold bind in H1. simpl in H1. injection H1 as _ <-.
  apply input_returns in H2. destruct H2 as [E2 E3].
  injection H as <- <-. exists line. simpl in *. auto.
Qed.

Lemma practice_turn_uses_input cfg s w s' w' :
  practice_turn cfg s w = Ret (Continue s') w' ->
  List.length (stdin w') < List.length (stdin w).
Proof.
  destruct s as [[] p]; simpl; [|discriminate]. intros H.
  apply bind_ret in H. destruct H as (p1 & w1 & H1 & H).
  apply bind_ret in H. destruct H as (b & w2 & H2 & H).
  injection H as _ <-.
  apply (keeps_returned (steady false)) in H1; [|apply steady_run_round].
  apply round_decision_returns in H2. destruct H2 as (line & E & _).
  destruct H1 as [H1 _]. rewrite E in H1. simpl in H1. lia.
Qed.

Lemma practice_loop_fueled cfg fuel st w :
  List.length (stdin w) < fuel ->
  loop fuel (practice_turn cfg) st w <> OutOfFuel.
Proof.
  apply (loop_fueled (fun w => List.length (stdin w))).
  - apply fueled_practice_turn.
  - apply practice_turn_uses_input.
Qed.

Lemma count_turn_uses_input s w s' w' :
  count_turn s w = Ret (Continue s') w' ->
  List.length (stdin w') < List.length (stdin w).
Proof.
  unfold count_turn. intros H.
  apply bind_ret in H. destruct H as (line & w1 & Hi & H).
  apply input_returns in Hi. destruct Hi as [E _]. rewrite E.
  assert (Hs : List.length (stdin w') <= List.length (stdin w1)).
  { destruct (int line) as [n|]; [destruct (n >? 0)%Z; [discriminate|]|];
      apply bind_ret in H; destruct H as (u & w2 & Hs & H);
      injection H as _ <-;
      apply (keeps_returned (steady true) _ _ _ _ (steady_speak true _)) in Hs;
      apply Hs. }
  simpl. lia.
Qed.

Lemma fueled_count_turn s : fueled (count_turn s).
Proof.
  unfold count_turn. apply fueled_bind; [apply fueled_input|].
  intros line. destruct (int line) as [n|]; [destruct (n >? 0)%Z|];
    enough_fuel.
Qed.

Lemma fueled_ask_count : fueled ask_count.
Proof.
  intros w. unfold ask_count.
  apply (loop_fueled (fun w => List.length (stdin w)));
    [apply fueled_count_turn | apply count_turn_uses_input | lia].
Qed.

(** The whole session always has the fuel it needs. *)
Lemma fueled_run_interview_session : fueled run_interview_session.
Proof.
  unfold run_interview_session, configure.
  pose proof fueled_ask_count.
  assert (forall cfg, fueled (practice cfg)).
  { intros cfg w. unfold practice, practice_from.
    apply practice_loop_fueled. lia. }
  enough_fuel; auto.
Qed.

End Fuel.

(* ------------------------------------------------------------------ *)
(** * Rounds and question numbers *)

Section Rounds.

Lemma count_from_app (k j : nat) :
  forall n,
    count_from n (k + j)
    = (count_from n k ++ count_from (n + Z.of_nat k) j)%list.
Proof.
  induction k as [|k IH]; intros n.
  - simpl. now rewrite Z.add_0_r.
  - change (S k + j) with (S (k + j)). cbn [count_from]. rewrite IH.
    cbn [app].
    replace (n + 1 + Z.of_nat k)%Z with (n + Z.of_nat (S k))%Z by lia.
    reflexivity.
Qed.

Lemma invoke_returns c inputs w completion w' :
  invoke c inputs w = Ret completion w' ->
  invoked w' = (invoked w ++ [(c, inputs, completion)])%list.
Proof.
  unfold invoke. destruct (prompt_of c inputs); [|discriminate].
  unfold bind, complete, emit.
  destruct (llm w) as [|[text|e] rest]; try discriminate.
  intros H. injection H as <- <-.
  rewrite invoked_log. reflexivity.
Qed.

Ltac quiet_step H w1 E :=
  let u := fresh "u" in
  apply bind_ret in H; destruct H as (u & w1 & E & H);
  apply (keeps_returned (steady true)) in E;
  [ destruct E as [_ E]; specialize (E eq_refl)
  | first [ apply steady_print | apply steady_speak
          | apply steady_get_user_answer ] ].

Lemma one_question_returns cfg n prev w n' prev' w' :
  one_question cfg (n, prev) w = Ret (n', prev') w' ->
  exists question answer feedback,
    n' = (n + 1)%Z
    /\ prev' = (prev ++ [question])%list
    /\ invoked w'
       = (invoked w
            ++ [(question_chain, question_inputs (job_topic cfg) n prev,
                 question);
                (feedback_chain,
                 feedback_inputs (job_topic cfg) question answer,
                 feedback)])%list.
Proof.
  unfold one_question. intros H.
  quiet_step H w1 E1.
  apply bind_ret in H. destruct H as (question & w2 & E2 & H).
  apply invoke_returns in E2. cbv zeta in H.
  quiet_step H w3 E3. quiet_step H w4 E4.
  apply bind_ret in H. destruct H as (answer & w5 & E5 & H).
  apply (keeps_returned (steady true)) in E5;
    [|apply steady_get_user_answer].
  destruct E5 as [_ E5]. specialize (E5 eq_refl).
  quiet_step H w6 E6.
  apply bind_ret in H. destruct H as (feedback & w7 & E7 & H).
  apply invoke_returns in E7.
  quiet_step H w8 E8. quiet_step H w9 E9.
  injection H as <- <- <-.
  exists question, answer, feedback. repeat split.
  rewrite E9, E8, E7, E6, E5, E4, E3, E2, E1.
  now rewrite <- app_assoc.
Qed.

Lemma for_range_questions cfg (k : nat) :
  forall n prev w n' prev' w',
    for_range k (one_question cfg) (n, prev) w = Ret (n', prev') w' ->
    n' = (n + Z.of_nat k)%Z
    /\ exists new,
         prev' = (prev ++ new)%list
         /\ List.length new = k
         /\ questions_generated w' = (questions_generated w ++ new)%list
         /\ numbers_asked w' = (numbers_asked w ++ count_from n k)%list.
Proof.
  induction k as [|k IH]; intros n prev w n' prev' w' H.
  - injection H as <- <- <-. split; [lia|]. exists [].
    now rewrite !app_nil_r.
  - simpl for_range in H. apply bind_ret in H.
    destruct H as ([n1 prev1] & w1 & H1 & H).
    apply one_question_returns in H1.
    destruct H1 as (q & a & f & -> & -> & Hi).
    apply IH in H. destruct H as (-> & new & -> & Hlen & Hg & Hn).
    split; [lia|]. exists (q :: new).
    unfold questions_generated, numbers_asked in *.
    rewrite Hi, flat_map_app in Hg, Hn. simpl in Hg, Hn.
    rewrite <- app_assoc in *. simpl in *.
    repeat split; auto.
Qed.

Lemma practice_loop_questions cfg (fuel : nat) :
  forall b n prev w p w',
    loop fuel (practice_turn cfg) (b, (n, prev)) w = Ret p w' ->
    exists (rounds : nat) (new : list string),
      let total := rounds * Z.to_nat (questions_per_round cfg) in
      fst p = (n + Z.of_nat total)%Z
      /\ snd p = (prev ++ new)%list
      /\ List.length new = total
      /\ questions_generated w' = (questions_generated w ++ new)%list
      /\ numbers_asked w' = (numbers_asked w ++ count_from n total)%list.
Proof.
  induction fuel as [|fuel IH]; intros b n prev w p w' H; [discriminate|].
  rewrite loop_step in H.
  destruct b; simpl practice_turn in H.
  - destruct (bind _ _ w) as [[[b1 [n1 prev1]]|r] w1| | |] eqn:E;
      try discriminate.
    + apply bind_ret in E. destruct E as ([n2 prev2] & w2 & Hr & E).
      apply bind_ret in E. destruct E as (b2 & w3 & Hd & E).
      injection E as <- <- <- <-.
      apply for_range_questions in Hr.
      destruct Hr as (-> & new1 & -> & Hlen1 & Hg1 & Hn1).
      apply (keeps_returned (steady true)) in Hd;
        [|apply steady_round_decision].
      destruct Hd as [_ Hd]. specialize (Hd eq_refl).
      apply IH in H. destruct H as (rounds & new2 & Hp & Hs & Hlen2 & Hg & Hn).
      exists (S rounds), (new1 ++ new2)%list.
      unfold questions_generated, numbers_asked in *.
      rewrite Hd in Hg, Hn. rewrite Hg1 in Hg. rewrite Hn1 in Hn.
      simpl. rewrite count_from_app, length_app, Hlen1, Hlen2.
      rewrite Hp, Hs, Hg, Hn, <- !app_assoc.
      repeat split; auto. lia.
    + apply bind_ret in E. destruct E as (p2 & w2 & Hr & E).
      apply bind_ret in E. destruct E as (b2 & w3 & Hd & E).
      discriminate.
  - injection H as <- <-. exists 0, []. simpl.
    rewrite !app_nil_r. repeat split; auto. lia.
Qed.

End Rounds.

(* ------------------------------------------------------------------ *)
(** * Configuration and the decision after a round *)

Section Session.



Lemma configure_returns w cfg w' :
  configure w = Ret cfg w' ->
  exists topic voice rest,
    stdin w = topic :: voice :: rest
    /\ job_topic cfg = topic
    /\ use_voice cfg = says_yes voice.
Proof.
  destruct w as [i m l o].
  unfold configure, bind, speak, print, emit, input, log, bind.
  cbn [stdin mic llm out].
  destruct i as [|topic [|voice rest]]; try discriminate.
  cbn [stdin mic llm out].
  destruct (ask_count _) as [n w1| | |]; try discriminate.
  intros H. injection H as <- <-. exists topic, voice, rest. auto.
Qed.









End Session.

(* ------------------------------------------------------------------ *)
(** * The lines of a rendered prompt *)

Section Prompts.

Lemma lines_from_length (s : string) :
  forall cur, List.length (lines_from cur s) = S (newlines s).
Proof.
  induction s as [|c r IH]; intros cur; simpl.
  - reflexivity.
  - destruct (code c =? 10)%N; simpl; now rewrite IH.
Qed.

Lemma newlines_app (s t : string) :
  newlines (s ++ t) = newlines s + newlines t.
Proof.
  induction s as [|c r IH]; simpl; [reflexivity|]. rewrite IH. lia.
Qed.

Lemma newlines_escape_char (double : bool) (c : ascii) :
  newlines (escape_char (if double then ascii_of_nat 34 else "'"%char) c) = 0.
Proof.
  destruct double; destruct c as [[] [] [] [] [] [] [] []]; reflexivity.
Qed.

Lemma newlines_escape (double : bool) (s : string) :
  newlines (escape (if double then ascii_of_nat 34 else "'"%char) s) = 0.
Proof.
  induction s as [|c r IH]; simpl; [reflexivity|].
  now rewrite newlines_app, newlines_escape_char, IH.
Qed.

Lemma newlines_repr_str (s : string) : newlines (repr_str s) = 0.
Proof.
  unfold repr_str.
  set (double := contains_char "'" s && negb (contains_char (ascii_of_nat 34) s)).
  pose proof (newlines_escape double s) as H.
  destruct double; simpl; rewrite newlines_app, H; reflexivity.
Qed.

Lemma newlines_uint (d : Decimal.uint) :
  newlines (NilEmpty.string_of_uint d) = 0.
Proof. induction d; simpl; auto. Qed.

Lemma newlines_str_of_int (n : Z) : newlines (str_of_int n) = 0.
Proof.
  unfold str_of_int, NilZero.string_of_int.
  destruct (Z.to_int n) as [d|d]; unfold NilZero.string_of_uint;
    destruct d; simpl; auto using newlines_uint.
Qed.

Lemma format_newlines (t : template) (vars : dict) :
  (forall name v, get name vars = Some v -> newlines (str v) = 0) ->
  forall text,
    format t vars = Some text -> newlines text = literal_newlines t.
Proof.
  intros Hv. induction t as [|[lit|name] r IH]; intros text H; simpl in H.
  - injection H as <-. reflexivity.
  - destruct (format r vars) as [rest|]; [|discriminate].
    injection H as <-. simpl. rewrite newlines_app. now rewrite (IH rest).
  - destruct (get name vars) as [v|] eqn:E; [|discriminate].
    destruct (format r vars) as [rest|]; [|discriminate].
    injection H as <-. simpl.
    rewrite newlines_app, (Hv name v E), (IH rest); reflexivity.
Qed.

Lemma repr_dict (d : dict) :
  repr (VDict d) = "{" ++ join ", " (map entry d) ++ "}".
Proof.
  simpl. do 3 f_equal. apply map_ext. intros [k x]. reflexivity.
Qed.

Lemma newlines_join (sep : string) (items : list string) :
  newlines sep = 0 ->
  Forall (fun s => newlines s = 0) items ->
  newlines (join sep items) = 0.
Proof.
  intros Hsep H. induction H as [|x xs Hx Hxs IH]; [reflexivity|].
  rewrite join_cons, newlines_app, Hx.
  destruct xs; [reflexivity|]. now rewrite newlines_app, Hsep, IH.
Qed.

Lemma newlines_repr_flat (d : dict) :
  forallb (fun kv => is_atom (snd kv)) d = true ->
  newlines (repr (VDict d)) = 0.
Proof.
  intros H. rewrite repr_dict, !newlines_app, newlines_join; try reflexivity.
  apply Forall_forall. intros s Hs. apply in_map_iff in Hs.
  destruct Hs as ([k x] & <- & Hin).
  apply (proj1 (forallb_forall _ _) H) in Hin. unfold entry.
  rewrite !newlines_app, newlines_repr_str.
  destruct x as [t|z|]; try discriminate; simpl snd; cbn [repr];
    [rewrite newlines_repr_str | rewrite newlines_str_of_int]; reflexivity.
Qed.

Lemma newlines_question_inputs topic n prev :
  newlines (str (VDict (question_inputs topic n prev))) = 0.
Proof. apply newlines_repr_flat. reflexivity. Qed.

Lemma prompt_line_count topic n prev :
  exists text,
    render_question_prompt topic n prev = Some text
    /\ List.length (lines text) = 20.
Proof.
  unfold render_question_prompt, prompt_of.
  set (vars := parallel (first_step question_chain)
                 (VDict (question_inputs topic n prev))).
  assert (Hv : forall name v, get name vars = Some v -> newlines (str v) = 0).
  { intros name v. unfold vars. simpl.
    repeat (destruct (String.eqb name _); [intros H; injection H as <-;
      apply newlines_question_inputs|]).
    discriminate. }
  destruct (format (template_of question_chain) vars) as [text|] eqn:E.
  - exists text. split; [reflexivity|].
    unfold lines. rewrite lines_from_length.
    rewrite (format_newlines _ vars Hv text E). reflexivity.
  - exfalso. unfold vars in E. simpl in E. discriminate E.
Qed.

End Prompts.

(* ------------------------------------------------------------------ *)
(** * The properties of the specification *)

Section Claims.

(** C1.  A round of [k = questions_per_round] questions that is completed
    takes the question number from [n] to [n + k] and appends [k] entries to
    the previous questions, the questions the chain generated, in that
    order; the numbers sent out are [n, n+1, ..., n+k-1].  Over a whole
    practice, whatever the number of rounds, the numbers sent out are
    [1, 2, 3, ...] without gap or repetition, and the previous questions
    are all the questions generated. *)
Theorem question_numbers_advance (cfg : Config) :
  (0 < questions_per_round cfg)%Z ->
  let k := questions_per_round cfg in
  (forall n prev w n' prev' w',
      run_round cfg (n, prev) w = Ret (n', prev') w' ->
      n' = (n + k)%Z
      /\ exists new,
           prev' = (prev ++ new)%list
           /\ Z.of_nat (List.length new) = k
           /\ questions_generated w' = (questions_generated w ++ new)%list
           /\ numbers_asked w'
              = (numbers_asked w ++ count_from n (Z.to_nat k))%list)
  /\ (forall w p w',
      practice cfg w = Ret p w' ->
      exists (rounds : nat) (new : list string),
        fst p = (1 + Z.of_nat rounds * k)%Z
        /\ snd p = new
        /\ Z.of_nat (List.length new) = (Z.of_nat rounds * k)%Z
        /\ questions_generated w' = (questions_generated w ++ new)%list
        /\ numbers_asked w'
           = (numbers_asked w
                ++ count_from 1 (rounds * Z.to_nat k))%list).
Proof.
  intros Hk k. split.
  - intros n prev w n' prev' w' H. unfold run_round in H.
    apply for_range_questions in H.
    destruct H as (-> & new & -> & Hlen & Hg & Hn).
    split; [fold k; lia|]. exists new. repeat split; auto.
    rewrite Hlen. fold k. lia.
  - intros w p w' H. unfold practice, practice_from in H.
    apply practice_loop_questions in H.
    destruct H as (rounds & new & Hp & Hs & Hlen & Hg & Hn).
    exists rounds, new. cbv zeta in *. fold k in Hp, Hlen, Hn.
    repeat split; auto.
    + rewrite Hp. rewrite Nat2Z.inj_mul. lia.
    + rewrite Hlen. rewrite Nat2Z.inj_mul. lia.
Qed.

Lemma question_numbers_advance_witness :
  match run_round demo_cfg (1%Z, []) demo_world with
  | Ret (n', prev') w' =>
      n' = 3%Z /\ List.length prev' = 2 /\ numbers_asked w' = [1%Z; 2%Z]
  | _ => False
  end.
Proof.
  destruct (run_round demo_cfg (1%Z, []) demo_world)
    as [[n' prev'] w'|e w'|w'|] eqn:E;
    try (vm_compute in E; discriminate E).
  destruct (question_numbers_advance demo_cfg) as [H _];
    [reflexivity|].
  apply H in E. destruct E as (-> & new & -> & Hlen & _ & Hn).
  simpl in *. repeat split; auto. lia.
Defined.

(** C2 as it is written does not hold: a recognised text that is empty is
    not appended and does not reset the counter.  Here the described loop
    goes on to hear "late", the script stops after three calls. *)
Lemma empty_text_counts_as_silence :
  let results :=
    [RecognizedText ""; Unrecognized; Unrecognized; RecognizedText "late";
     Unrecognized; Unrecognized; Unrecognized] in
  observed (collect_voice_answer (mkWorld [] (map heard results) [] []))
  = Some ("No answer provided.",
          map heard [RecognizedText "late"; Unrecognized; Unrecognized;
                     Unrecognized])
  /\ described_voice_answer results = Some (" late", [])
  /\ ~ voice_as_described results.
Proof.
  cbv zeta. split; [reflexivity|]. split; [reflexivity|].
  intros H. specialize (H [] [] []). vm_compute in H. discriminate H.
Qed.

(** C2, amended.  The voice strategy is this loop on every sequence of
    results of [listen()], empty texts included: a silence counter from 0
    with threshold 3; every recognised text that is not empty is appended
    and resets the counter; every result without text, and an empty text,
    increments it; the loop is left once the counter reaches 3; the parts
    are joined by single spaces in the order they came (the fallback text
    when there is none).  Where the loop is not left on the results given,
    the script waits for the next one.  The sequence a, nothing, b,
    nothing, nothing, nothing gives "a b". *)
Theorem voice_answer_as_amended :
  (forall results i l o,
      observed (collect_voice_answer (mkWorld i (map heard results) l o))
      = option_map (fun ar => (fst ar, map heard (snd ar)))
          (amended_voice_answer results))
  /\ (forall results i l o,
        amended_voice_answer results = None ->
        exists w',
          collect_voice_answer (mkWorld i (map heard results) l o)
          = Pending w')
  /\ (forall i l o,
        observed
          (collect_voice_answer
             (mkWorld i
                (map heard
                   [RecognizedText "a"; Unrecognized; RecognizedText "b";
                    Unrecognized; Unrecognized; Unrecognized]) l o))
        = Some ("a b", [])).
Proof.
  assert (H : forall results i l o,
      match collect_voice_answer (mkWorld i (map heard results) l o),
            amended_voice_answer results with
      | Ret answer w, Some (answer', rest) =>
          answer = answer' /\ mic w = map heard rest
      | Pending _, None => True
      | _, _ => False
      end).
  { intros results i l o. rewrite collect_voice_answer_run.
    unfold amended_voice_answer.
    pose proof (voice_run_amended results [] 0%Z i l
                  (Said voice_hint :: Printed voice_hint :: o)) as R.
    destruct (voice_run _ _ _ _ _ _) as [p w| | |];
      destruct (amended_loop [] 0 results) as [[p' rest]|];
      try contradiction; simpl; auto.
    destruct R as [-> ->]. split; reflexivity. }
  assert (G : forall results i l o,
      observed (collect_voice_answer (mkWorld i (map heard results) l o))
      = option_map (fun ar => (fst ar, map heard (snd ar)))
          (amended_voice_answer results)).
  { intros results i l o. specialize (H results i l o).
    destruct (collect_voice_answer _) as [answer w| | |];
      destruct (amended_voice_answer results) as [[answer' rest]|];
      try contradiction; simpl; auto.
    destruct H as [-> ->]. reflexivity. }
  split; [exact G|]. split.
  - intros results i l o E. specialize (H results i l o).
    rewrite E in H.
    destruct (collect_voice_answer _) as [answer w| |w|];
      try contradiction. eauto.
  - intros i l o. rewrite G. reflexivity.
Qed.

Lemma voice_answer_as_amended_witness :
  exists w',
    collect_voice_answer
      (mkWorld [] (map heard [RecognizedText ""; Unrecognized]) [] [])
    = Pending w'.
Proof.
  apply (proj1 (proj2 voice_answer_as_amended)
           [RecognizedText ""; Unrecognized] [] [] []).
  reflexivity.
Defined.

(** C3 as it is written does not hold: when the user says the words of the
    fallback themselves, they are an accumulated part and the answer is the
    fallback text all the same. *)
Lemma spoken_fallback_text_is_a_part :
  let script :=
    map heard
      [RecognizedText "No answer provided."; Unrecognized; Unrecognized;
       Unrecognized] in
  observed (collect_voice_answer (mkWorld [] script [] []))
  = Some ("No answer provided.", [])
  /\ parts_of script = ["No answer provided."]
  /\ ~ fallback_exactly_when_empty script.
Proof.
  cbv zeta. split; [vm_compute; reflexivity|].
  split; [reflexivity|].
  intros H.
  destruct (collect_voice_answer
              (mkWorld []
                 (map heard
                    [RecognizedText "No answer provided."; Unrecognized;
                     Unrecognized; Unrecognized]) [] []))
    as [answer w'| | |] eqn:E.
  - specialize (H [] [] [] answer w' E).
    vm_compute in E. injection E as <- <-.
    destruct (H (map heard
                   [RecognizedText "No answer provided."; Unrecognized;
                    Unrecognized; Unrecognized]) eq_refl) as [H' _].
    specialize (H' eq_refl). discriminate H'.
  - vm_compute in E; discriminate E.
  - vm_compute in E; discriminate E.
  - vm_compute in E; discriminate E.
Qed.

(** C3, amended.  When the first three results of [listen()] are all
    without text, the voice strategy comes back after exactly these three
    calls with the fallback answer.  Whenever it comes back, the fallback
    branch is the one taken exactly when no part was accumulated, and
    otherwise the parts joined by spaces are the answer; so the answer is
    the fallback text exactly when there is no part or the joined parts
    are that text themselves. *)
Theorem silent_answer_falls_back :
  (forall r1 r2 r3 rest i l o,
      is_silent r1 = true -> is_silent r2 = true -> is_silent r3 = true ->
      exists o',
        collect_voice_answer
          (mkWorld i (map heard (r1 :: r2 :: r3 :: rest)) l o)
        = Ret "No answer provided." (mkWorld i (map heard rest) l o'))
  /\ (forall w answer w',
      collect_voice_answer w = Ret answer w' ->
      exists consumed,
        mic w = (consumed ++ mic w')%list
        /\ (parts_of consumed = [] -> answer = "No answer provided.")
        /\ (parts_of consumed <> [] ->
            answer = join " " (parts_of consumed))
        /\ (answer = "No answer provided."
            <-> parts_of consumed = []
                \/ join " " (parts_of consumed) = "No answer provided.")).
Proof.
  split.
  - intros r1 r2 r3 rest i l o H1 H2 H3.
    rewrite collect_voice_answer_run.
    destruct r1; try discriminate; destruct r2; try discriminate;
      destruct r3; try discriminate; simpl;
      (rewrite voice_run_stops by (unfold max_silence; lia));
      eexists; reflexivity.
  - intros [i m l o] answer w' H. rewrite collect_voice_answer_run in H.
    destruct (voice_run _ _ _ _ _ _) as [p w1| | |] eqn:E;
      try discriminate.
    injection H as <- <-.
    apply voice_run_returns in E. destruct E as (k & -> & -> & _).
    exists k. simpl. repeat split; auto.
    + intros ->. reflexivity.
    + intros Hne. destruct (parts_of k); [congruence | reflexivity].
    + destruct (parts_of k) as [|x xs]; [now left|]. intros H. now right.
    + intros [->|H]; [reflexivity|].
      destruct (parts_of k) as [|x xs]; [reflexivity | exact H].
Qed.

Lemma silent_answer_falls_back_witness :
  exists o',
    collect_voice_answer
      (mkWorld []
         (map heard [Unrecognized; ServiceError; Unrecognized;
                     RecognizedText "too late"]) [] [])
    = Ret "No answer provided."
        (mkWorld [] (map heard [RecognizedText "too late"]) [] o').
Proof.
  apply (proj1 silent_answer_falls_back
           Unrecognized ServiceError Unrecognized
           [RecognizedText "too late"] [] [] []); reflexivity.
Defined.

(** C4.  On every sequence of the three results of [listen()] the voice
    strategy raises nothing: either it comes back, or the sequence is used
    up and it waits for more.  It comes back exactly at the point where the
    silence counter, which [Unrecognized] and [ServiceError] both raise by
    one, first reaches 3, with the texts heard up to there; it waits
    exactly when the counter stays below 3 over the whole sequence.  The
    question whether the user is finished is said as often as the counter
    became 1, neither more nor less; on a single turn without text the
    parts stay, the counter goes up by one and the question is said exactly
    when the counter becomes 1. *)
Theorem voice_never_raises (results : list listen_result)
    (i : list string) (l : list reply) (o : list event) :
  let outcome := collect_voice_answer (mkWorld i (map heard results) l o) in
  (forall e w', outcome <> Raise e w')
  /\ outcome <> OutOfFuel
  /\ (forall s1 s2 s3,
        is_silent s1 = true -> is_silent s2 = true -> is_silent s3 = true ->
        exists answer w',
          collect_voice_answer
            (mkWorld i (map heard (results ++ [s1; s2; s3])) l o)
          = Ret answer w')
  /\ (forall r parts c rest,
        is_silent r = true -> (c < max_silence)%Z ->
        exists o',
          voice_turn (parts, c) (mkWorld i (heard r :: rest) l o)
          = Ret (Continue (parts, (c + 1)%Z)) (mkWorld i rest l o')
          /\ said_count finished_prompt o'
             = (if (c + 1 =? 1)%Z then 1 else 0)
               + said_count finished_prompt o)
  /\ (forall r c rs,
        is_silent r = true ->
        silence_after c (r :: rs) = silence_after (c + 1) rs
        /\ reminders c (r :: rs)
           = (if (c + 1 =? 1)%Z then 1 else 0) + reminders (c + 1) rs)
  /\ (forall answer w',
        outcome = Ret answer w' ->
        exists used rest,
          results = (used ++ rest)%list
          /\ mic w' = map heard rest
          /\ stdin w' = i /\ llm w' = l
          /\ answer = voice_result (texts_of used)
          /\ silence_after 0 used = 3%Z
          /\ (forall before more,
                 used = (before ++ more)%list -> more <> [] ->
                 (silence_after 0 before < 3)%Z)
          /\ said_count finished_prompt (out w')
             = reminders 0 used + said_count finished_prompt o)
  /\ (forall w',
        outcome = Pending w' ->
        (forall before more,
            results = (before ++ more)%list ->
            (silence_after 0 before < 3)%Z)
        /\ mic w' = []
        /\ said_count finished_prompt (out w')
           = reminders 0 results + said_count finished_prompt o).
Proof.
  cbv zeta. rewrite collect_voice_answer_run.
  pose proof (voice_run_no_raise results [] 0%Z i l
                (Said voice_hint :: Printed voice_hint :: o)) as N.
  pose proof (voice_run_course results [] 0%Z i l
                (Said voice_hint :: Printed voice_hint :: o)) as C.
  split; [|split; [|split; [|split; [|split; [|split]]]]].
  - intros e w'. destruct (voice_run _ _ _ _ _ _); try discriminate.
    contradiction.
  - destruct (voice_run _ _ _ _ _ _); try discriminate. contradiction.
  - intros s1 s2 s3 H1 H2 H3. rewrite collect_voice_answer_run.
    destruct (voice_run_ends results [s1; s2; s3] [] 0%Z i l
                (Said voice_hint :: Printed voice_hint :: o))
      as (a & w' & E); [simpl; now rewrite H1, H2, H3 | simpl; lia | lia |].
    rewrite E. simpl. eauto.
  - intros r parts c rest Hr Hc. unfold voice_turn.
    apply Z.ltb_lt in Hc. rewrite Hc.
    destruct r; try discriminate;
      unfold bind, listen, try, print, emit, recognize_google, log,
        silence, speak, print, emit, bind;
      simpl; destruct (c + 1 =? 1)%Z; simpl; eexists; split; reflexivity.
  - intros r c rs Hr. destruct r; try discriminate; split; reflexivity.
  - intros answer w' H.
    destruct (voice_run _ _ _ _ _ _) as [p w1| | |] eqn:E; try discriminate.
    injection H as <- <-. specialize (C ltac:(lia)).
    destruct C as (used & rest & -> & Hm & Hi & Hl & -> & H3 & Hp & Hd).
    exists used, rest. simpl. auto 10.
  - intros w' H.
    destruct (voice_run _ _ _ _ _ _) as [p w1| |w1|] eqn:E; try discriminate.
    injection H as <-. exact (C ltac:(lia)).
Qed.

Lemma voice_never_raises_witness :
  exists answer w',
    collect_voice_answer
      (mkWorld []
         (map heard
            ([RecognizedText "a"; ServiceError; RecognizedText "b"]
               ++ [Unrecognized; ServiceError; Unrecognized])) [] [])
    = Ret answer w'.
Proof.
  destruct (voice_never_raises
              [RecognizedText "a"; ServiceError; RecognizedText "b"]
              [] [] []) as (_ & _ & H & _).
  apply (H Unrecognized ServiceError Unrecognized); reflexivity.
Defined.

(** C5.  The text strategy passes over the blank lines typed before any
    content, takes the non-blank lines that follow, stops at the first
    blank line after them and gives these lines back joined by newlines,
    in the order they were typed. *)
Theorem text_answer_joins_lines (blanks body : list string) (b : string)
    (rest : list string) (m l : list reply) (o : list event) :
  forallb blank blanks = true ->
  forallb (fun x => negb (blank x)) body = true ->
  body <> [] ->
  blank b = true ->
  collect_text_answer (mkWorld (blanks ++ body ++ b :: rest) m l o)
  = Ret (join nl body)
      (mkWorld rest m l
         (repeat (Prompted "")
            (List.length blanks + Datatypes.S (List.length body))
            ++ Printed typing_hint :: o)).
Proof.
  intros Hblanks Hbody Hne Hb.
  rewrite collect_text_answer_run, text_run_stops by assumption.
  cbn [joined].
  rewrite (Nat.add_comm (List.length blanks)), repeat_app, <- app_assoc.
  reflexivity.
Qed.

Lemma text_answer_joins_lines_witness :
  collect_text_answer (mkWorld [""; "hello"; "world"; ""] [] [] [])
  = Ret ("hello" ++ nl ++ "world")
      (mkWorld [] [] []
         [Prompted ""; Prompted ""; Prompted ""; Prompted "";
          Printed typing_hint]).
Proof.
  apply (text_answer_joins_lines [""] ["hello"; "world"] "" [] [] [] []);
    [reflexivity | reflexivity | discriminate | reflexivity].
Defined.

Lemma filter_nonempty_split {A} (f : A -> bool) (xs : list A) :
  filter f xs <> [] ->
  exists pre x post, xs = (pre ++ x :: post)%list /\ f x = true.
Proof.
  intros H. destruct (filter f xs) as [|y ys] eqn:E; [congruence|].
  assert (Hy : In y (filter f xs)) by (rewrite E; now left).
  apply filter_In in Hy. destruct Hy as [Hin Hf].
  apply in_split in Hin. destruct Hin as (pre & post & ->). eauto.
Qed.

(** C6.  The text strategy comes back exactly when the lines typed hold a
    non-blank line with a blank line somewhere after it.  On blank lines
    only it never comes back (the input ends and [EOFError] goes up); once
    a non-blank line was typed, reading stops right after the first blank
    line that follows; and [""; "x"; ""] gives "x". *)
Theorem text_answer_returns_iff :
  (forall lines m l o,
      (exists answer w',
          collect_text_answer (mkWorld lines m l o) = Ret answer w')
      <-> (exists pre x mid b post,
              lines = (pre ++ x :: mid ++ b :: post)%list
              /\ blank x = false /\ blank b = true))
  /\ (forall lines m l o,
        forallb blank lines = true ->
        exists w', collect_text_answer (mkWorld lines m l o)
                   = Raise EOFError w')
  /\ (forall blanks body b rest m l o,
        forallb blank blanks = true ->
        forallb (fun x => negb (blank x)) body = true ->
        body <> [] ->
        blank b = true ->
        exists answer o',
          collect_text_answer (mkWorld (blanks ++ body ++ b :: rest) m l o)
          = Ret answer (mkWorld rest m l o'))
  /\ (forall m l o,
        exists o', collect_text_answer (mkWorld [""; "x"; ""] m l o)
                   = Ret "x" (mkWorld [] m l o')).
Proof.
  split; [|split; [|split]].
  - intros lines m l o. split.
    + intros (answer & w' & H). rewrite collect_text_answer_run in H.
      destruct (text_run _ _ _ _ _) as [a w1| | |] eqn:E; try discriminate.
      apply text_run_returns in E.
      destruct E as (consumed & b & -> & Hb & -> & Hne & _).
      simpl in Hne. apply filter_nonempty_split in Hne.
      destruct Hne as (pre & x & post & -> & Hx).
      exists pre, x, post, b, (stdin w1). rewrite <- app_assoc. simpl.
      repeat split; auto. now apply negb_true_iff.
    + intros (pre & x & mid & b & post & -> & Hx & Hb).
      rewrite collect_text_answer_run.
      destruct (text_run_content_then_blank pre [] x mid b post m l
                  (Printed typing_hint :: o) Hx Hb) as (a & w' & E).
      rewrite E. simpl. eauto.
  - intros lines m l o H. rewrite collect_text_answer_run.
    rewrite <- (app_nil_r lines).
    rewrite text_run_blanks
      by (apply Forall_forall; apply forallb_forall; exact H).
    simpl. eauto.
  - intros blanks body b rest m l o H1 H2 H3 H4.
    rewrite collect_text_answer_run, text_run_stops by assumption.
    simpl. eauto.
  - intros m l o. eexists. reflexivity.
Qed.

Lemma text_answer_returns_iff_witness :
  exists answer w',
    collect_text_answer (mkWorld ["  "; "x"; "y"; ""; "z"] [] [] [])
    = Ret answer w'.
Proof.
  apply (proj1 text_answer_returns_iff).
  exists ["  "], "x", ["y"], "", ["z"]. repeat split.
Defined.

(** C7 on the script.  With the previous questions Q1 and Q2 the block
    built in the session has the two bullet lines, but in the prompt that
    is sent every field holds the printed form of the whole input of the
    chain: no line of the prompt is "- Q1" or "- Q2", and the two bullets
    sit on the same lines, separated by a backslash and the letter n.
    Whatever the topic, the number and the previous questions, the prompt
    has the twenty lines of the template and no more.  With no previous
    question it holds "None yet." and the lines that start with a dash are
    the four fixed ones of the template. *)
Theorem previous_questions_share_one_line :
  (exists text,
      render_question_prompt "Go" 3 ["Q1"; "Q2"] = Some text
      /\ lines (prev_questions_formatted ["Q1"; "Q2"]) = ["- Q1"; "- Q2"]
      /\ ~ In "- Q1" (lines text)
      /\ ~ In "- Q2" (lines text)
      /\ filter (contains "- Q1") (lines text)
         = filter (contains "- Q2") (lines text)
      /\ nth 14 (lines text) ""
         = "{'job_topic': 'Go', 'question_number': 3, "
           ++ "'previous_questions': '- Q1\n- Q2'}")
  /\ (forall topic n previous_questions,
        exists text,
          render_question_prompt topic n previous_questions = Some text
          /\ List.length (lines text) = 20)
  /\ (exists text,
        render_question_prompt "Go" 1 [] = Some text
        /\ contains "None yet." text = true
        /\ filter (String.prefix "- ") (lines text)
           = ["- Technical and specific to the job topic";
              "- Similar to what might be asked in a real interview";
              "- Challenging but answerable";
              "- Clear and concise"]).
Proof.
  split; [|split].
  - eexists. split; [vm_compute; reflexivity|].
    repeat split; try (vm_compute; reflexivity);
      intros H; vm_compute in H;
      repeat (destruct H as [H|H]; [discriminate H|]); exact H.
  - exact prompt_line_count.
  - eexists. split; [vm_compute; reflexivity|].
    split; vm_compute; reflexivity.
Qed.







End Claims.

(* ------------------------------------------------------------------ *)
(** * Further properties of the script *)

Lemma same_refl {X} (f : World -> X) (w : World) : same f w w.
Proof. reflexivity. Qed.

Lemma same_trans {X} (f : World -> X) (a b c : World) :
  same f a b -> same f b c -> same f a c.
Proof. unfold same. congruence. Qed.

Lemma announcing_refl (w : World) : announcing w w.
Proof. intros H. exact H. Qed.

Lemma announcing_trans (a b c : World) :
  announcing a b -> announcing b c -> announcing a c.
Proof. unfold announcing. auto. Qed.

(** Composite scripts keep a relation that their steps keep. *)
Ltac kept refl trans :=
  repeat
    match goal with
    | |- keeps _ (ret _) => apply keeps_ret; apply refl
    | |- keeps _ (raise _) => apply keeps_raise; apply refl
    | |- keeps _ (bind _ _) => apply keeps_bind; [apply trans | |]
    | |- keeps _ (try _ _) => apply keeps_try; [apply trans | |]
    | |- keeps _ (loop _ _ _) =>
        apply keeps_loop; [apply refl | apply trans |]
    | |- keeps _ (for_range _ _ _) =>
        apply keeps_for_range; [apply refl | apply trans |]
    | |- keeps _ (fun w => loop _ _ _ w) =>
        apply (keeps_fueled _ _ (fun n => loop n _ _))
    | |- keeps _ (if ?b then _ else _) => destruct b
    | |- keeps _ (match ?x with _ => _ end) => destruct x
    | |- forall _, _ => intro
    | |- keeps _ _ => solve [auto]
    end.

Lemma after_fueled {A} (m : M A) (w : World) :
  fueled m -> exists w', after (m w) = Some w'.
Proof.
  intros H. specialize (H w). destruct (m w); simpl; eauto. congruence.
Qed.

Lemma keeps_after {A} (Rel : World -> World -> Prop) (m : M A) w w' :
  keeps Rel m -> after (m w) = Some w' -> Rel w w'.
Proof.
  intros H E. specialize (H w).
  destruct (m w); simpl in E; try discriminate; injection E as <-; exact H.
Qed.

Section Untouched.

Lemma stdin_emit e : keeps (same stdin) (emit e).
Proof. intros w. reflexivity. Qed.

Lemma mic_emit e : keeps (same mic) (emit e).
Proof. intros w. reflexivity. Qed.

Lemma llm_emit e : keeps (same llm) (emit e).
Proof. intros w. reflexivity. Qed.

Lemma stdin_speak text : keeps (same stdin) (speak text).
Proof. intros w. reflexivity. Qed.

Lemma mic_speak text : keeps (same mic) (speak text).
Proof. intros w. reflexivity. Qed.

Lemma llm_speak text : keeps (same llm) (speak text).
Proof. intros w. reflexivity. Qed.

Lemma mic_input prompt : keeps (same mic) (input prompt).
Proof. intros w. unfold input. destruct (stdin w); reflexivity. Qed.

Lemma llm_input prompt : keeps (same llm) (input prompt).
Proof. intros w. unfold input. destruct (stdin w); reflexivity. Qed.

Lemma said_print text : keeps (same said_texts) (print text).
Proof. intros w. reflexivity. Qed.

Lemma said_input prompt : keeps (same said_texts) (input prompt).
Proof. intros w. unfold input. destruct (stdin w); reflexivity. Qed.

Lemma stdin_recognize : keeps (same stdin) recognize_google.
Proof.
  intros w. unfold recognize_google.
  destruct (mic w) as [|[text|e] rest]; reflexivity.
Qed.

Lemma llm_recognize : keeps (same llm) recognize_google.
Proof.
  intros w. unfold recognize_google.
  destruct (mic w) as [|[text|e] rest]; reflexivity.
Qed.

Lemma stdin_complete : keeps (same stdin) complete.
Proof.
  intros w. unfold complete.
  destruct (llm w) as [|[text|e] rest]; reflexivity.
Qed.

Lemma mic_complete : keeps (same mic) complete.
Proof.
  intros w. unfold complete.
  destruct (llm w) as [|[text|e] rest]; reflexivity.
Qed.

Lemma stdin_listen : keeps (same stdin) listen.
Proof.
  unfold listen, print. pose proof stdin_emit. pose proof stdin_recognize.
  kept (@same_refl (list string)) (@same_trans (list string)).
Qed.

Lemma llm_listen : keeps (same llm) listen.
Proof.
  unfold listen, print. pose proof llm_emit. pose proof llm_recognize.
  kept (@same_refl (list reply)) (@same_trans (list reply)).
Qed.

Lemma stdin_voice : keeps (same stdin) (get_user_answer true).
Proof.
  unfold get_user_answer, voice_turn, silence.
  pose proof stdin_speak. pose proof stdin_listen.
  kept (@same_refl (list string)) (@same_trans (list string)).
Qed.

Lemma llm_voice : keeps (same llm) (get_user_answer true).
Proof.
  unfold get_user_answer, voice_turn, silence.
  pose proof llm_speak. pose proof llm_listen.
  kept (@same_refl (list reply)) (@same_trans (list reply)).
Qed.

Lemma mic_text : keeps (same mic) (get_user_answer false).
Proof.
  unfold get_user_answer, text_turn, print.
  pose proof mic_emit. pose proof mic_input.
  kept (@same_refl (list reply)) (@same_trans (list reply)).
Qed.

Lemma llm_text : keeps (same llm) (get_user_answer false).
Proof.
  unfold get_user_answer, text_turn, print.
  pose proof llm_emit. pose proof llm_input.
  kept (@same_refl (list reply)) (@same_trans (list reply)).
Qed.

Lemma said_text : keeps (same said_texts) (get_user_answer false).
Proof.
  unfold get_user_answer, text_turn.
  pose proof said_print. pose proof said_input.
  kept (@same_refl (list string)) (@same_trans (list string)).
Qed.

End Untouched.

(** X5.  Collecting a spoken answer reads no line of the console and asks
    nothing of the model, however it ends. *)
Theorem voice_answer_leaves_console_and_model (w : World) :
  exists w',
    after (get_user_answer true w) = Some w'
    /\ stdin w' = stdin w
    /\ llm w' = llm w.
Proof.
  destruct (after_fueled (get_user_answer true) w
              (fueled_get_user_answer true)) as (w' & E).
  exists w'. split; [exact E|]. split.
  - exact (keeps_after (same stdin) _ w w' stdin_voice E).
  - exact (keeps_after (same llm) _ w w' llm_voice E).
Qed.

(** X6.  Collecting a typed answer does not use the microphone, asks
    nothing of the model and says nothing, however it ends. *)
Theorem text_answer_is_silent (w : World) :
  exists w',
    after (get_user_answer false w) = Some w'
    /\ mic w' = mic w
    /\ llm w' = llm w
    /\ said_texts w' = said_texts w.
Proof.
  destruct (after_fueled (get_user_answer false) w
              (fueled_get_user_answer false)) as (w' & E).
  exists w'. split; [exact E|]. repeat split.
  - exact (keeps_after (same mic) _ w w' mic_text E).
  - exact (keeps_after (same llm) _ w w' llm_text E).
  - exact (keeps_after (same said_texts) _ w w' said_text E).
Qed.

Section Announcing.

Lemma announcing_print text : keeps announcing (print text).
Proof. intros w H. exact H. Qed.

Lemma announcing_speak text : keeps announcing (speak text).
Proof.
  intros w H. simpl. now rewrite String.eqb_refl.
Qed.

Lemma announcing_invoked c inputs completion :
  keeps announcing (emit (Invoked c inputs completion)).
Proof. intros w H. exact H. Qed.

Lemma announcing_input prompt : keeps announcing (input prompt).
Proof. intros w. unfold input. destruct (stdin w); intros H; exact H. Qed.

Lemma announcing_recognize : keeps announcing recognize_google.
Proof.
  intros w. unfold recognize_google.
  destruct (mic w) as [|[text|e] rest]; intros H; exact H.
Qed.

Lemma announcing_complete : keeps announcing complete.
Proof.
  intros w. unfold complete.
  destruct (llm w) as [|[text|e] rest]; intros H; exact H.
Qed.

Ltac announce := kept announcing_refl announcing_trans.

Lemma announcing_listen : keeps announcing listen.
Proof.
  unfold listen. pose proof announcing_print. pose proof announcing_recognize.
  announce.
Qed.

Lemma announcing_get_user_answer b : keeps announcing (get_user_answer b).
Proof.
  unfold get_user_answer, voice_turn, silence, text_turn.
  pose proof announcing_print. pose proof announcing_speak.
  pose proof announcing_listen. pose proof announcing_input.
  announce.
Qed.

Lemma announcing_invoke c inputs : keeps announcing (invoke c inputs).
Proof.
  unfold invoke.
  pose proof announcing_complete. pose proof announcing_invoked.
  announce.
Qed.

Lemma announcing_one_question cfg st : keeps announcing (one_question cfg st).
Proof.
  unfold one_question.
  pose proof announcing_print. pose proof announcing_speak.
  pose proof announcing_invoke. pose proof announcing_get_user_answer.
  announce.
Qed.

Lemma announcing_round_decision : keeps announcing round_decision.
Proof.
  unfold round_decision.
  pose proof announcing_speak. pose proof announcing_input. announce.
Qed.

Lemma announcing_practice cfg : keeps announcing (practice cfg).
Proof.
  unfold practice, practice_from, practice_turn, run_round.
  pose proof announcing_one_question. pose proof announcing_round_decision.
  announce.
Qed.

Lemma announcing_configure : keeps announcing configure.
Proof.
  unfold configure, ask_count, count_turn.
  pose proof announcing_speak. pose proof announcing_input. announce.
Qed.

Lemma announcing_session : keeps announcing run_interview_session.
Proof.
  unfold run_interview_session.
  pose proof announcing_speak. pose proof announcing_practice.
  pose proof announcing_configure. announce.
Qed.

End Announcing.

(** X1.  Whatever is said is printed first: if this holds of what came
    before the session, it holds of everything the session emits, however
    the session ends. *)
Theorem everything_said_is_printed (w : World) :
  announced (out w) = true ->
  exists w',
    after (run_interview_session w) = Some w'
    /\ announced (out w') = true.
Proof.
  intros H.
  destruct (after_fueled run_interview_session w fueled_run_interview_session)
    as (w' & E).
  exists w'. split; [exact E|].
  exact (keeps_after announcing _ w w' announcing_session E H).
Qed.

Lemma everything_said_is_printed_witness :
  exists w',
    after (run_interview_session
             (mkWorld ["Go"; "y"; "1"] [Gives "fine"; Throws RequestError]
                [Gives "Q1"] [])) = Some w'
    /\ announced (out w') = true.
Proof.
  apply everything_said_is_printed. reflexivity.
Defined.

Section TextSession.

Ltac same_mic := kept (@same_refl (list reply)) (@same_trans (list reply)).

Lemma mic_invoke c inputs : keeps (same mic) (invoke c inputs).
Proof.
  unfold invoke. pose proof mic_complete. pose proof mic_emit. same_mic.
Qed.

Lemma mic_one_question cfg st :
  use_voice cfg = false -> keeps (same mic) (one_question cfg st).
Proof.
  intros Hv. unfold one_question, print. rewrite Hv.
  pose proof mic_emit. pose proof mic_speak. pose proof mic_invoke.
  pose proof mic_text. same_mic.
Qed.

Lemma mic_round_decision : keeps (same mic) round_decision.
Proof.
  unfold round_decision. pose proof mic_speak. pose proof mic_input.
  same_mic.
Qed.

Lemma mic_practice cfg :
  use_voice cfg = false -> keeps (same mic) (practice cfg).
Proof.
  intros Hv. unfold practice, practice_from, practice_turn, run_round.
  pose proof (fun st => mic_one_question cfg st Hv).
  pose proof mic_round_decision. same_mic.
Qed.

Lemma mic_configure : keeps (same mic) configure.
Proof.
  unfold configure, ask_count, count_turn.
  pose proof mic_speak. pose proof mic_input. same_mic.
Qed.

Lemma mic_text_session (w : World) :
  says_yes (nth 1 (stdin w) "") = false ->
  forall w', after (run_interview_session w) = Some w' -> mic w' = mic w.
Proof.
  intros Hno w'. unfold run_interview_session, bind.
  pose proof (mic_configure w) as Hc.
  destruct (configure w) as [cfg w1|e w1|w1|] eqn:E; simpl;
    try (intros H; injection H as <-; exact Hc); try discriminate.
  apply configure_returns in E.
  destruct E as (topic & voice & rest & Hin & _ & Hv).
  rewrite Hin in Hno. simpl in Hno. rewrite Hno in Hv.
  pose proof (mic_practice cfg Hv w1) as Hp.
  destruct (practice cfg w1) as [p w2|e w2|w2|]; simpl;
    try (intros H; injection H as <-; unfold same in *; simpl; congruence);
    try discriminate.
Qed.

End TextSession.

(** X9.  When the answer to the voice question is not a yes, the session
    never uses the microphone, however long it runs and however it ends. *)
Theorem text_session_never_listens (w : World) :
  says_yes (nth 1 (stdin w) "") = false ->
  exists w',
    after (run_interview_session w) = Some w' /\ mic w' = mic w.
Proof.
  intros Hno.
  destruct (after_fueled run_interview_session w fueled_run_interview_session)
    as (w' & E).
  exists w'. split; [exact E|]. exact (mic_text_session w Hno w' E).
Qed.

Lemma text_session_never_listens_witness :
  exists w',
    after (run_interview_session
             (mkWorld ["Go"; "no"; "1"; "typed"; ""; "n"]
                [Gives "unheard"] [Gives "Q"; Gives "F"] [])) = Some w'
    /\ mic w' = [Gives "unheard"].
Proof.
  apply (text_session_never_listens
           (mkWorld ["Go"; "no"; "1"; "typed"; ""; "n"]
              [Gives "unheard"] [Gives "Q"; Gives "F"] [])).
  reflexivity.
Defined.

Section VoiceEdges.

Lemma voice_run_tail (script : list reply) :
  forall parts c i l o a w',
    (0 <= c <= 3)%Z ->
    voice_run parts c script i l o = Ret a w' ->
    exists pre tail,
      script = (pre ++ tail ++ mic w')%list
      /\ forallb quiet_reply tail = true
      /\ ((pre = [] /\ (c + Z.of_nat (List.length tail) = 3)%Z)
          \/ List.length tail = 3).
Proof.
  induction script as [|r rest IH]; intros parts c i l o a w' Hc H;
    simpl in H; destruct (Z.ltb_spec c max_silence) as [Hlt|Hge];
    unfold max_silence in *; try discriminate.
  - injection H as <- <-. exists [], []. simpl. split; auto. split; auto.
    left. split; auto. lia.
  - destruct (fatal r); [discriminate|].
    destruct (part_of r) as [text|] eqn:P.
    + apply IH in H; [|lia].
      destruct H as (pre & tail & -> & Hq & [[-> Hl]|Hl]).
      * exists [r], tail. simpl. repeat split; auto. right.
        simpl in Hl. lia.
      * exists (r :: pre), tail. simpl. auto.
    + apply IH in H; [|lia].
      destruct H as (pre & tail & -> & Hq & [[-> Hl]|Hl]).
      * exists [], (r :: tail). simpl. unfold quiet_reply at 1. rewrite P.
        repeat split; auto. left. split; auto.
        rewrite Zpos_P_of_succ_nat. lia.
      * exists (r :: pre), tail. simpl. auto.
  - injection H as <- <-. exists [], []. simpl. split; auto. split; auto.
    left. split; auto. lia.
Qed.

Lemma parts_of_truthy (consumed : list reply) :
  forallb truthy (parts_of consumed) = true.
Proof.
  unfold parts_of.
  induction consumed as [|r rest IH]; simpl; [reflexivity|].
  destruct r as [text|e]; simpl; [|exact IH].
  destruct (truthy text) eqn:T; simpl; [now rewrite T | exact IH].
Qed.

Lemma join_not_empty (sep x : string) (xs : list string) :
  x <> "" -> join sep (x :: xs) <> "".
Proof.
  intros Hx. rewrite join_cons. destruct x; [congruence | discriminate].
Qed.


End VoiceEdges.

(** X3.  When the voice strategy comes back it has used at least three
    answers of the recogniser, and the last three it used added nothing to
    the answer: no text, or an empty one. *)
Theorem voice_answer_ends_on_three_silences (w : World) (answer : string)
    (w' : World) :
  collect_voice_answer w = Ret answer w' ->
  exists before s1 s2 s3,
    mic w = (before ++ [s1; s2; s3] ++ mic w')%list
    /\ quiet_reply s1 = true
    /\ quiet_reply s2 = true
    /\ quiet_reply s3 = true.
Proof.
  destruct w as [i m l o]. rewrite collect_voice_answer_run.
  destruct (voice_run _ _ _ _ _ _) as [p w1| | |] eqn:E; try discriminate.
  intros H. injection H as _ <-.
  apply voice_run_tail in E; [|lia].
  destruct E as (pre & tail & -> & Hq & Hl).
  assert (Hlen : List.length tail = 3) by (destruct Hl as [[_ Hl]|Hl]; lia).
  destruct tail as [|s1 [|s2 [|s3 [|s4 t]]]]; try discriminate.
  simpl in Hq. apply andb_prop in Hq as [H1 Hq].
  apply andb_prop in Hq as [H2 Hq]. apply andb_prop in Hq as [H3 _].
  exists pre, s1, s2, s3. auto.
Qed.

Lemma voice_answer_ends_on_three_silences_witness :
  exists before s1 s2 s3,
    [Gives "yes"; Throws RequestError; Gives ""; Throws UnknownValueError;
     Gives "late"]
    = (before ++ [s1; s2; s3] ++ [Gives "late"])%list
    /\ quiet_reply s1 = true
    /\ quiet_reply s2 = true
    /\ quiet_reply s3 = true.
Proof.
  apply (voice_answer_ends_on_three_silences
           (mkWorld []
              [Gives "yes"; Throws RequestError; Gives "";
               Throws UnknownValueError; Gives "late"] [] [])
           "yes"
           (mkWorld [] [Gives "late"] []
              (listened (Throws UnknownValueError)
                 (listened (Gives "")
                    (reminded 0
                       (listened (Throws RequestError)
                          (listened (Gives "yes")
                             [Said voice_hint; Printed voice_hint]))))))).
  reflexivity.
Defined.

(** X4.  In either mode an answer that comes back is never the empty
    text. *)
Theorem answer_is_never_empty (by_voice : bool) (w : World)
    (answer : string) (w' : World) :
  get_user_answer by_voice w = Ret answer w' -> answer <> "".
Proof.
  destruct w as [i m l o]. destruct by_voice.
  - change (get_user_answer true) with collect_voice_answer.
    rewrite collect_voice_answer_run.
    destruct (voice_run _ _ _ _ _ _) as [p w1| | |] eqn:E; try discriminate.
    intros H. injection H as <- _.
    apply voice_run_returns in E. destruct E as (k & _ & -> & _).
    simpl. pose proof (parts_of_truthy k) as T.
    destruct (parts_of k) as [|x xs]; [discriminate|].
    apply join_not_empty. simpl in T. apply andb_prop in T as [T _].
    destruct x; [discriminate T | discriminate].
  - change (get_user_answer false) with collect_text_answer.
    rewrite collect_text_answer_run.
    destruct (text_run _ _ _ _ _) as [a w1| | |] eqn:E; try discriminate.
    intros H. injection H as <- _.
    apply text_run_returns in E.
    destruct E as (consumed & b & _ & _ & -> & Hne & _). simpl in *.
    destruct (filter _ consumed) as [|x xs] eqn:F; [congruence|].
    apply join_not_empty.
    assert (Hx : In x (filter (fun x => negb (blank x)) consumed))
      by (rewrite F; now left).
    apply filter_In in Hx. destruct Hx as [_ Hx]. intros ->. discriminate Hx.
Qed.

Lemma answer_is_never_empty_witness :
  "No answer provided." <> "".
Proof.
  apply (answer_is_never_empty true
           (mkWorld [] [Gives ""; Gives ""; Gives ""] [] [])
           "No answer provided."
           (mkWorld [] [] []
              (listened (Gives "")
                 (listened (Gives "")
                    (reminded 0
                       (listened (Gives "")
                          [Said voice_hint; Printed voice_hint])))))).
  reflexivity.
Defined.


Section Wiring.

Lemma prompt_of_fill (c : chain) (inputs : dict) :
  prompt_of c inputs = Some (fill (template_of c) (repr (VDict inputs))).
Proof. destruct c; reflexivity. Qed.

Lemma newlines_fill (t : template) (text : string) :
  newlines text = 0 -> newlines (fill t text) = literal_newlines t.
Proof.
  intros H. induction t as [|[fixed|name] r IH]; simpl.
  - reflexivity.
  - now rewrite newlines_app, IH.
  - now rewrite newlines_app, H, IH.
Qed.

End Wiring.


(** X14.  The prompt that asks for feedback has the seventeen lines of its
    template whatever the topic, the question and the answer: an answer of
    several lines is not laid out on lines of its own. *)
Theorem feedback_prompt_line_count (topic question answer : string) :
  exists text,
    prompt_of feedback_chain (feedback_inputs topic question answer)
    = Some text
    /\ List.length (lines text) = 17.
Proof.
  eexists. split; [apply prompt_of_fill|].
  unfold lines. rewrite lines_from_length, newlines_fill; [reflexivity|].
  apply newlines_repr_flat. reflexivity.
Qed.

Section Exchanges.

Lemma count_loop_returns (fuel : nat) :
  forall lines m l o n w',
    loop fuel count_turn tt (mkWorld lines m l o) = Ret n w' ->
    exists bad good,
      lines = (bad ++ good :: stdin w')%list
      /\ forallb rejected bad = true
      /\ int good = Some n
      /\ (0 < n)%Z.
Proof.
  induction fuel as [|fuel IH]; intros lines m l o n w' H; [discriminate|].
  rewrite loop_step in H.
  unfold count_turn, bind, input, speak, print, emit, log, bind in H.
  cbn [stdin mic llm out] in H.
  destruct lines as [|line rest]; [discriminate|].
  destruct (int line) as [v|] eqn:E.
  - destruct (v >? 0)%Z eqn:P.
    + injection H as <- <-. exists [], line. simpl.
      repeat split; auto. now apply Z.gtb_lt.
    + apply IH in H. destruct H as (bad & good & Hl & Hb & Hg).
      simpl in Hl. subst rest.
      exists (line :: bad), good. simpl. unfold rejected at 1.
      rewrite E, P. auto.
  - apply IH in H. destruct H as (bad & good & Hl & Hb & Hg).
    simpl in Hl. subst rest.
    exists (line :: bad), good. simpl. unfold rejected at 1.
    rewrite E. auto.
Qed.

Lemma invoke_exchange c inputs w completion w' :
  invoke c inputs w = Ret completion w' ->
  invoked w' = (invoked w ++ [(c, inputs, completion)])%list
  /\ llm w = Gives completion :: llm w'.
Proof.
  intros H. split; [now apply invoke_returns|].
  revert H. unfold invoke. rewrite prompt_of_fill.
  unfold bind, complete, emit.
  destruct (llm w) as [|[text|e] rest]; try discriminate.
  intros H. injection H as <- <-. reflexivity.
Qed.

Lemma llm_get_user_answer b : keeps (same llm) (get_user_answer b).
Proof. destruct b; [apply llm_voice | apply llm_text]. Qed.

Ltac still H w1 E L :=
  let u := fresh "u" in
  apply bind_ret in H; destruct H as (u & w1 & E & H);
  pose proof E as L;
  apply (keeps_returned (steady true)) in E;
  [ destruct E as [_ E]; specialize (E eq_refl);
    apply (keeps_returned (same llm)) in L;
    [ unfold same in L
    | first [ apply llm_emit | apply llm_speak
            | apply llm_get_user_answer ] ]
  | first [ apply steady_print | apply steady_speak
          | apply steady_get_user_answer ] ].

Lemma one_question_exchange cfg n prev w n' prev' w' :
  one_question cfg (n, prev) w = Ret (n', prev') w' ->
  exists x,
    n' = (n + 1)%Z
    /\ prev' = (prev ++ [asked x])%list
    /\ invoked w' = (invoked w ++ calls_of (job_topic cfg) n prev [x])%list
    /\ llm w = (completions_of [x] ++ llm w')%list.
Proof.
  unfold one_question. intros H.
  still H w1 E1 L1.
  apply bind_ret in H. destruct H as (question & w2 & E2 & H).
  apply invoke_exchange in E2. destruct E2 as [E2 L2]. cbv zeta in H.
  still H w3 E3 L3. still H w4 E4 L4.
  apply bind_ret in H. destruct H as (answer & w5 & E5 & H).
  pose proof (keeps_returned (same llm) _ _ _ _
                (llm_get_user_answer (use_voice cfg)) E5) as L5.
  unfold same in L5.
  apply (keeps_returned (steady true)) in E5;
    [|apply steady_get_user_answer].
  destruct E5 as [_ E5]. specialize (E5 eq_refl).
  still H w6 E6 L6.
  apply bind_ret in H. destruct H as (feedback & w7 & E7 & H).
  apply invoke_exchange in E7. destruct E7 as [E7 L7].
  still H w8 E8 L8. still H w9 E9 L9.
  injection H as <- <- <-.
  exists (question, answer, feedback). simpl. repeat split.
  - rewrite E9, E8, E7, E6, E5, E4, E3, E2, E1. now rewrite <- app_assoc.
  - congruence.
Qed.

Lemma calls_of_app topic (xs ys : list exchange) :
  forall n prev,
    calls_of topic n prev (xs ++ ys)
    = (calls_of topic n prev xs
         ++ calls_of topic (n + Z.of_nat (List.length xs))
              (prev ++ map asked xs) ys)%list.
Proof.
  induction xs as [|[[q a] f] xs IH]; intros n prev.
  - simpl. now rewrite Z.add_0_r, app_nil_r.
  - cbn [calls_of app]. rewrite IH. cbn [map asked fst List.length].
    rewrite <- app_assoc. simpl app.
    replace (n + 1 + Z.of_nat (List.length xs))%Z
      with (n + Z.of_nat (S (List.length xs)))%Z by lia.
    reflexivity.
Qed.

Lemma for_range_exchanges cfg (k : nat) :
  forall n prev w n' prev' w',
    for_range k (one_question cfg) (n, prev) w = Ret (n', prev') w' ->
    exists xs,
      List.length xs = k
      /\ n' = (n + Z.of_nat k)%Z
      /\ prev' = (prev ++ map asked xs)%list
      /\ invoked w' = (invoked w ++ calls_of (job_topic cfg) n prev xs)%list
      /\ llm w = (completions_of xs ++ llm w')%list.
Proof.
  induction k as [|k IH]; intros n prev w n' prev' w' H.
  - injection H as <- <- <-. exists []. simpl.
    rewrite !app_nil_r. repeat split; auto. lia.
  - simpl for_range in H. apply bind_ret in H.
    destruct H as ([n1 prev1] & w1 & H1 & H).
    apply one_question_exchange in H1.
    destruct H1 as (x & -> & -> & Hi & Hl).
    apply IH in H. destruct H as (xs & Hlen & -> & -> & Hi' & Hl').
    exists (x :: xs). split; [simpl; now rewrite Hlen|].
    split; [lia|]. split; [simpl; now rewrite <- app_assoc|].
    split.
    + rewrite Hi', Hi, <- app_assoc.
      change (x :: xs) with ([x] ++ xs)%list. rewrite calls_of_app.
      simpl. destruct x as [[q a] f]. reflexivity.
    + rewrite Hl, Hl'. unfold completions_of. simpl.
      destruct x as [[q a] f]. reflexivity.
Qed.

Lemma practice_loop_exchanges cfg (fuel : nat) :
  forall b n prev w p w',
    loop fuel (practice_turn cfg) (b, (n, prev)) w = Ret p w' ->
    exists (rounds : nat) (xs : list exchange),
      (b = true -> 1 <= rounds)
      /\ List.length xs = rounds * Z.to_nat (questions_per_round cfg)
      /\ p = ((n + Z.of_nat (List.length xs))%Z,
              (prev ++ map asked xs)%list)
      /\ invoked w' = (invoked w ++ calls_of (job_topic cfg) n prev xs)%list
      /\ llm w = (completions_of xs ++ llm w')%list.
Proof.
  induction fuel as [|fuel IH]; intros b n prev w p w' H; [discriminate|].
  rewrite loop_step in H.
  destruct b; simpl practice_turn in H.
  - destruct (bind _ _ w) as [[[b1 [n1 prev1]]|r] w1| | |] eqn:E;
      try discriminate.
    + apply bind_ret in E. destruct E as ([n2 prev2] & w2 & Hr & E).
      apply bind_ret in E. destruct E as (b2 & w3 & Hd & E).
      injection E as <- <- <- <-.
      apply for_range_exchanges in Hr.
      destruct Hr as (xs1 & Hlen1 & -> & -> & Hi1 & Hl1).
      pose proof (keeps_returned (same llm) _ _ _ _
                    (keeps_bind _ (@same_trans _ llm) _ _
                       (llm_speak _)
                       (fun _ => keeps_bind _ (@same_trans _ llm) _ _
                                   (llm_input _)
                                   (fun a => keeps_ret _ (@same_refl _ llm) _)))
                    Hd) as Ld.
      apply (keeps_returned (steady true)) in Hd;
        [|apply steady_round_decision].
      destruct Hd as [_ Hd]. specialize (Hd eq_refl).
      apply IH in H.
      destruct H as (rounds & xs2 & _ & Hlen2 & -> & Hi2 & Hl2).
      exists (S rounds), (xs1 ++ xs2)%list. unfold same in Ld.
      split; [lia|]. split; [rewrite length_app, Hlen1, Hlen2; simpl; lia|].
      split; [|split].
      * rewrite length_app, map_app, app_assoc, Nat2Z.inj_add, Hlen1.
        f_equal. lia.
      * rewrite Hi2, Hd, Hi1, <- app_assoc, calls_of_app, Hlen1.
        reflexivity.
      * rewrite Hl1, <- Ld, Hl2. unfold completions_of.
        now rewrite flat_map_app, app_assoc.
    + apply bind_ret in E. destruct E as (p2 & w2 & Hr & E).
      apply bind_ret in E. destruct E as (b2 & w3 & Hd & E).
      discriminate.
  - injection H as <- <-. exists 0, []. simpl.
    rewrite !app_nil_r, Z.add_0_r. repeat split; auto. discriminate.
Qed.

End Exchanges.

Section Replay.

Lemma text_run_console (lines : list string) :
  forall acc m l o m2 l2 o2,
    match text_run acc lines m l o, text_run acc lines m2 l2 o2 with
    | Ret p w, Ret p2 w2 =>
        p = p2 /\ stdin w = stdin w2 /\ mic w = m /\ mic w2 = m2
    | Raise _ _, Raise _ _ => True
    | _, _ => False
    end.
Proof.
  induction lines as [|line rest IH]; intros acc m l o m2 l2 o2; simpl; auto.
  destruct (blank line); [destruct acc|]; simpl;
    first [apply IH | repeat split].
Qed.

Lemma voice_run_recogniser (script : list reply) :
  forall parts c i l o i2 l2 o2,
    match voice_run parts c script i l o,
          voice_run parts c script i2 l2 o2 with
    | Ret p w, Ret p2 w2 =>
        p = p2 /\ mic w = mic w2 /\ stdin w = i /\ stdin w2 = i2
    | Raise _ _, Raise _ _ => True
    | Pending _, Pending _ => True
    | _, _ => False
    end.
Proof.
  induction script as [|r rest IH]; intros parts c i l o i2 l2 o2; simpl;
    destruct (c <? max_silence)%Z; simpl; auto.
  destruct (fatal r); auto. destruct (part_of r); apply IH.
Qed.

Lemma get_user_answer_collected by_voice i m l o answer w' :
  get_user_answer by_voice (mkWorld i m l o) = Ret answer w' ->
  collected by_voice i m = Some (answer, (stdin w', mic w')).
Proof.
  unfold collected. destruct by_voice.
  - fold collect_voice_answer. rewrite !collect_voice_answer_run.
    pose proof (voice_run_recogniser m [] 0%Z i l
                  (Said voice_hint :: Printed voice_hint :: o)
                  i [] (Said voice_hint :: Printed voice_hint :: [])) as R.
    destruct (voice_run _ _ _ i l _) as [p w| | |];
      destruct (voice_run _ _ _ i [] _) as [p2 w2| | |];
      try contradiction; try discriminate.
    destruct R as (-> & R1 & R2 & R3). simpl.
    intros H. injection H as <- <-. now rewrite R1, R2, R3.
  - fold collect_text_answer. rewrite !collect_text_answer_run.
    pose proof (text_run_console i [] m l (Printed typing_hint :: o)
                  m [] (Printed typing_hint :: [])) as R.
    destruct (text_run _ _ m l _) as [p w| | |];
      destruct (text_run _ _ m [] _) as [p2 w2| | |];
      try contradiction; try discriminate.
    destruct R as (-> & R1 & R2 & R3). simpl.
    intros H. injection H as <- <-. now rewrite R1, R2, R3.
Qed.

Lemma answers_from_app by_voice (xs ys : list exchange) :
  forall i m,
    answers_from by_voice i m (xs ++ ys)
    = match answers_from by_voice i m xs with
      | Some (i', m') => answers_from by_voice i' m' ys
      | None => None
      end.
Proof.
  induction xs as [|[[q a] f] xs IH]; intros i m; simpl; [reflexivity|].
  destruct (collected by_voice i m) as [[given [i' m']]|]; [|reflexivity].
  destruct (String.eqb given a); [apply IH | reflexivity].
Qed.

Lemma speak_run text w :
  speak text w = Ret tt (log (Said text) (log (Printed text) w)).
Proof. reflexivity. Qed.

Lemma invoke_run c inputs w completion w' :
  invoke c inputs w = Ret completion w' ->
  exists rest,
    llm w = Gives completion :: rest
    /\ w' = log (Invoked c inputs completion)
              (mkWorld (stdin w) (mic w) rest (out w)).
Proof.
  unfold invoke. rewrite prompt_of_fill. unfold bind, complete, emit.
  destruct (llm w) as [|[text|e] rest]; try discriminate.
  intros H. injection H as <- <-. eauto.
Qed.

Ltac said H :=
  let u := fresh "u" in
  let w1 := fresh "w" in
  let E := fresh "E" in
  apply bind_ret in H; destruct H as (u & w1 & E & H);
  first [rewrite speak_run in E | unfold print, emit in E];
  injection E as <- <-.

Lemma one_question_replay cfg n prev w n' prev' w' :
  one_question cfg (n, prev) w = Ret (n', prev') w' ->
  exists x,
    n' = (n + 1)%Z
    /\ prev' = (prev ++ [asked x])%list
    /\ invoked w' = (invoked w ++ calls_of (job_topic cfg) n prev [x])%list
    /\ llm w = (completions_of [x] ++ llm w')%list
    /\ answers_from (use_voice cfg) (stdin w) (mic w) [x]
       = Some (stdin w', mic w').
Proof.
  unfold one_question. intros H.
  said H.
  apply bind_ret in H. destruct H as (question & w2 & E2 & H).
  apply invoke_run in E2. destruct E2 as (rest2 & L2 & ->). cbv zeta in H.
  said H. said H.
  apply bind_ret in H. destruct H as (answer & w5 & E5 & H).
  said H.
  apply bind_ret in H. destruct H as (feedback & w7 & E7 & H).
  apply invoke_run in E7. destruct E7 as (rest7 & L7 & ->).
  said H. said H.
  injection H as <- <- <-.
  unfold log in E5. cbn [stdin mic llm out] in E5.
  pose proof (keeps_returned (steady true) _ _ _ _
                (steady_get_user_answer true (use_voice cfg)) E5) as [_ S5].
  specialize (S5 eq_refl).
  pose proof (keeps_returned (same llm) _ _ _ _
                (llm_get_user_answer (use_voice cfg)) E5) as M5.
  unfold same in M5. cbn [llm] in M5.
  apply get_user_answer_collected in E5.
  exists (question, answer, feedback).
  split; [reflexivity|]. split; [reflexivity|]. split; [|split].
  - unfold invoked, trace, log in *. cbn [stdin mic llm out rev] in *.
    rewrite !flat_map_app in *. cbn [flat_map call_of app] in *.
    rewrite !app_nil_r in *. rewrite S5, <- !app_assoc. reflexivity.
  - unfold log in *. cbn [stdin mic llm out] in *.
    rewrite L2. simpl. f_equal. rewrite <- M5, L7. reflexivity.
  - cbn [answers_from stdin mic log llm out]. rewrite E5.
    now rewrite String.eqb_refl.
Qed.

Lemma for_range_replay cfg (k : nat) :
  forall n prev w n' prev' w',
    for_range k (one_question cfg) (n, prev) w = Ret (n', prev') w' ->
    exists xs,
      List.length xs = k
      /\ n' = (n + Z.of_nat k)%Z
      /\ prev' = (prev ++ map asked xs)%list
      /\ invoked w' = (invoked w ++ calls_of (job_topic cfg) n prev xs)%list
      /\ llm w = (completions_of xs ++ llm w')%list
      /\ answers_from (use_voice cfg) (stdin w) (mic w) xs
         = Some (stdin w', mic w').
Proof.
  induction k as [|k IH]; intros n prev w n' prev' w' H.
  - injection H as <- <- <-. exists []. simpl.
    rewrite !app_nil_r. repeat split; auto. lia.
  - simpl for_range in H. apply bind_ret in H.
    destruct H as ([n1 prev1] & w1 & H1 & H).
    apply one_question_replay in H1.
    destruct H1 as (x & -> & -> & Hi & Hl & Ha).
    apply IH in H. destruct H as (xs & Hlen & -> & -> & Hi' & Hl' & Ha').
    exists (x :: xs). split; [simpl; now rewrite Hlen|].
    split; [lia|]. split; [simpl; now rewrite <- app_assoc|].
    split; [|split].
    + rewrite Hi', Hi, <- app_assoc.
      change (x :: xs) with ([x] ++ xs)%list. rewrite calls_of_app.
      simpl. destruct x as [[q a] f]. reflexivity.
    + rewrite Hl, Hl'. unfold completions_of. simpl.
      destruct x as [[q a] f]. reflexivity.
    + change (x :: xs) with ([x] ++ xs)%list.
      now rewrite answers_from_app, Ha.
Qed.

Lemma practice_loop_rounds cfg (fuel : nat) :
  forall b n prev w p w',
    loop fuel (practice_turn cfg) (b, (n, prev)) w = Ret p w' ->
    exists rounds : list (list exchange),
      Forall (fun xs => List.length xs = Z.to_nat (questions_per_round cfg))
        rounds
      /\ p = ((n + Z.of_nat (List.length (List.concat rounds)))%Z,
              (prev ++ map asked (List.concat rounds))%list)
      /\ invoked w'
         = (invoked w ++ calls_of (job_topic cfg) n prev (List.concat rounds))%list
      /\ llm w = (completions_of (List.concat rounds) ++ llm w')%list
      /\ (if b
          then rounds_from (use_voice cfg) (stdin w) (mic w) rounds
               = Some (stdin w', mic w')
          else rounds = [] /\ w' = w).
Proof.
  induction fuel as [|fuel IH]; intros b n prev w p w' H; [discriminate|].
  rewrite loop_step in H.
  destruct b; simpl practice_turn in H.
  - destruct (bind _ _ w) as [[[b1 [n1 prev1]]|r] w1| | |] eqn:E;
      try discriminate.
    + apply bind_ret in E. destruct E as ([n2 prev2] & w2 & Hr & E).
      apply bind_ret in E. destruct E as (b2 & w3 & Hd & E).
      injection E as <- <- <- <-.
      apply for_range_replay in Hr.
      destruct Hr as (xs1 & Hlen1 & -> & -> & Hi1 & Hl1 & Ha1).
      apply round_decision_returns in Hd.
      destruct Hd as (line & Hs & -> & Hw).
      apply IH in H.
      destruct H as (more & Hall & -> & Hi2 & Hl2 & Hb).
      exists (xs1 :: more). cbn [List.concat].
      split; [constructor; assumption|]. split; [|split; [|split]].
      * rewrite length_app, map_app, app_assoc, Nat2Z.inj_add, Hlen1.
        f_equal. lia.
      * rewrite Hi2, Hw. 
        rewrite (invoked_out _ (stdin w2) _ (mic w2) _ (llm w2)).
        change (mkWorld (stdin w2) (mic w2) (llm w2)
                  (Prompted continue_prompt :: Said continue_question
                     :: Printed continue_question :: out w2))
          with (log (Prompted continue_prompt)
                  (log (Said continue_question)
                     (log (Printed continue_question) w2))).
        rewrite !invoked_log. simpl call_of. rewrite !app_nil_r.
        rewrite Hi1, <- app_assoc, calls_of_app, Hlen1. reflexivity.
      * rewrite Hl1. rewrite Hw in Hl2. cbn [llm] in Hl2. rewrite Hl2.
        unfold completions_of. now rewrite flat_map_app, app_assoc.
      * cbn [rounds_from]. rewrite Ha1, Hs.
        rewrite Hw in Hb. cbn [stdin mic] in Hb.
        destruct (says_yes line).
        -- destruct more as [|ys more]; [discriminate Hb | exact Hb].
        -- destruct Hb as [-> ->]. reflexivity.
    + apply bind_ret in E. destruct E as (p2 & w2 & Hr & E).
      apply bind_ret in E. destruct E as (b2 & w3 & Hd & E).
      discriminate.
  - injection H as <- <-. exists []. simpl.
    rewrite !app_nil_r, Z.add_0_r. repeat split; auto.
Qed.

End Replay.

Section Blocks.

Lemma lines_from_plain (s : string) :
  forall cur rest,
    newlines s = 0 ->
    lines_from cur (s ++ rest) = lines_from (cur ++ s) rest.
Proof.
  induction s as [|c r IH]; intros cur rest H; simpl.
  - now rewrite append_empty_r.
  - simpl in H. destruct (code c =? 10)%N; [discriminate|].
    rewrite IH by exact H. f_equal.
    clear. induction cur as [|d t IHt]; simpl; [reflexivity|].
    now rewrite IHt.
Qed.

Lemma lines_join (xs : list string) :
  forall x,
    forallb (fun q => (newlines q =? 0)%nat) (x :: xs) = true ->
    lines (join nl (x :: xs)) = x :: xs.
Proof.
  induction xs as [|y ys IH]; intros x H; simpl in H;
    apply andb_prop in H as [Hx H]; apply Nat.eqb_eq in Hx.
  - unfold lines. simpl join.
    rewrite <- (append_empty_r x) at 1.
    rewrite lines_from_plain by exact Hx. reflexivity.
  - unfold lines. rewrite join_cons.
    rewrite lines_from_plain by exact Hx. simpl.
    f_equal. apply (IH y). exact H.
Qed.

Lemma bullets_plain (qs : list string) :
  forallb (fun q => (newlines q =? 0)%nat) qs = true ->
  forallb (fun q => (newlines q =? 0)%nat) (map (fun q => "- " ++ q) qs)
  = true.
Proof.
  induction qs as [|q qs IH]; [reflexivity|].
  intros H. cbn [map forallb] in *. apply andb_prop in H as [Hq H].
  rewrite (IH H). change (newlines ("- " ++ q)) with (newlines q).
  now rewrite Hq.
Qed.

Lemma configure_llm : keeps (same llm) configure.
Proof.
  unfold configure, ask_count, count_turn.
  pose proof llm_speak. pose proof llm_input.
  kept (@same_refl (list reply)) (@same_trans (list reply)).
Qed.

Lemma voice_run_heard (texts : list string) :
  forall parts script i l o,
    forallb truthy texts = true ->
    exists o',
      voice_run parts 0 (map Gives texts ++ script) i l o
      = voice_run (parts ++ texts) 0 script i l o'.
Proof.
  induction texts as [|t ts IH]; intros parts script i l o H.
  - exists o. simpl. now rewrite app_nil_r.
  - simpl in H. apply andb_prop in H as [Ht H].
    destruct (IH (parts ++ [t])%list script i l
                (listened (Gives t) o) H) as (o' & E).
    exists o'. simpl in E |- *. rewrite Ht, E, <- app_assoc. reflexivity.
Qed.

End Blocks.

(** X16.  The block of previous questions can be read back: when there is
    a question and no question holds a newline, the lines of the block
    without their dashes are the questions, in order; and the block is the
    marker "None yet." exactly when there is no question. *)
Theorem previous_questions_read_back (previous_questions : list string) :
  (previous_questions <> [] ->
   forallb (fun q => (newlines q =? 0)%nat) previous_questions = true ->
   map unbullet (lines (prev_questions_formatted previous_questions))
   = previous_questions)
  /\ (prev_questions_formatted previous_questions = "None yet."
      <-> previous_questions = []).
Proof.
  split.
  - intros Hne H. destruct previous_questions as [|q qs]; [congruence|].
    unfold prev_questions_formatted.
    change (map (fun q0 => "- " ++ q0) (q :: qs))
      with (("- " ++ q) :: map (fun q0 => "- " ++ q0) qs).
    rewrite lines_join.
    + rewrite <- map_cons, map_map. simpl. now rewrite map_id.
    + rewrite <- map_cons. apply bullets_plain. exact H.
  - split.
    + destruct previous_questions as [|q qs]; [reflexivity|].
      unfold prev_questions_formatted.
      change (map (fun q0 => "- " ++ q0) (q :: qs))
        with (("- " ++ q) :: map (fun q0 => "- " ++ q0) qs).
      rewrite join_cons. simpl. discriminate.
    + intros ->. reflexivity.
Qed.

Lemma previous_questions_read_back_witness :
  map unbullet
    (lines (prev_questions_formatted ["What is a goroutine?"; "- dash"]))
  = ["What is a goroutine?"; "- dash"].
Proof.
  apply (proj1 (previous_questions_read_back
                  ["What is a goroutine?"; "- dash"]));
    [discriminate | reflexivity].
Defined.

(** X8.  A configuration that was read was typed as: the job topic, the
    answer to the voice question, any number of rejected counts, and the
    count, which is above zero.  The recogniser and the model were not
    used. *)
Theorem configuration_read_back (w : World) (cfg : Config) (w' : World) :
  configure w = Ret cfg w' ->
  exists voice bad good,
    stdin w = (job_topic cfg :: voice :: bad ++ good :: stdin w')%list
    /\ use_voice cfg = says_yes voice
    /\ forallb rejected bad = true
    /\ int good = Some (questions_per_round cfg)
    /\ (0 < questions_per_round cfg)%Z
    /\ mic w' = mic w
    /\ llm w' = llm w.
Proof.
  intros H.
  pose proof (keeps_returned (same mic) _ _ _ _ mic_configure H) as Hm.
  pose proof (keeps_returned (same llm) _ _ _ _ configure_llm H) as Hl.
  destruct w as [i m l o]. revert H.
  unfold configure, ask_count, bind, speak, print, emit, input, log, bind.
  cbn [stdin mic llm out].
  destruct i as [|topic [|voice rest]]; try discriminate.
  cbn [stdin mic llm out].
  destruct (loop _ count_turn tt _) as [n w1| | |] eqn:E; try discriminate.
  intros H. injection H as <- <-.
  apply count_loop_returns in E.
  destruct E as (bad & good & -> & Hb & Hg & Hn).
  exists voice, bad, good. simpl. auto 10.
Qed.

Lemma configuration_read_back_witness :
  exists voice bad good,
    ["Go"; "Y"; "two"; "0"; " 2 "; "next"]
    = ("Go" :: voice :: bad ++ good :: ["next"])%list
    /\ true = says_yes voice
    /\ forallb rejected bad = true
    /\ int good = Some 2%Z
    /\ (0 < 2)%Z
    /\ @nil reply = []
    /\ @nil reply = [].
Proof.
  apply (configuration_read_back
           (mkWorld ["Go"; "Y"; "two"; "0"; " 2 "; "next"] [] [] [])
           (mkConfig "Go" true 2)
           (mkWorld ["next"] [] []
              (Prompted count_prompt
                 :: retried ["two"; "0"] (greeted [])))).
  reflexivity.
Defined.

(** X10.  A practice that comes back went in rounds of
    [questions_per_round] exchanges, and at each exchange it called the
    model as follows: the question chain on the job topic, the next number
    from 1 and the questions generated before, then the feedback chain on
    the job topic, the question just generated and the answer that
    [get_user_answer] gave at that point of the console and of the
    recogniser.  After each round it read a line of the console, which
    meant yes except after the last.  It has used two completions of the
    model per exchange, in this order, and the questions it ends with are
    the ones generated. *)
Theorem practice_calls (cfg : Config) (w : World) (p : Progress)
    (w' : World) :
  practice cfg w = Ret p w' ->
  exists rounds : list (list exchange),
    Forall (fun xs => List.length xs = Z.to_nat (questions_per_round cfg))
      rounds
    /\ invoked w'
       = (invoked w ++ calls_of (job_topic cfg) 1 [] (List.concat rounds))%list
    /\ llm w = (completions_of (List.concat rounds) ++ llm w')%list
    /\ p = ((1 + Z.of_nat (List.length (List.concat rounds)))%Z,
            map asked (List.concat rounds))
    /\ rounds_from (use_voice cfg) (stdin w) (mic w) rounds
       = Some (stdin w', mic w').
Proof.
  unfold practice, practice_from. intros H.
  apply practice_loop_rounds in H.
  destruct H as (rounds & Hall & Hp & Hi & Hl & Hr).
  exists rounds. auto.
Qed.

Lemma practice_calls_witness :
  exists rounds : list (list exchange),
    Forall (fun xs => List.length xs = 2) rounds
    /\ invoked
         (match practice demo_cfg demo_world with
          | Ret _ w' => w'
          | _ => demo_world
          end)
       = calls_of "Go" 1 [] (List.concat rounds)
    /\ llm demo_world = (completions_of (List.concat rounds) ++ [])%list
    /\ (3%Z, ["Q1"; "Q2"])
       = ((1 + Z.of_nat (List.length (List.concat rounds)))%Z,
          map asked (List.concat rounds))
    /\ rounds_from false ["a1"; ""; "a2"; ""; "no"] [] rounds
       = Some ([], []).
Proof.
  apply (practice_calls demo_cfg demo_world (3%Z, ["Q1"; "Q2"])).
  vm_compute. reflexivity.
Defined.

(** X11.  A practice that comes back has run at least one whole round: the
    number of questions it asked is the round size times a number of
    rounds that is at least one. *)
Theorem at_least_one_round (cfg : Config) (w : World) (p : Progress)
    (w' : World) :
  practice cfg w = Ret p w' ->
  exists rounds : nat,
    1 <= rounds
    /\ List.length (snd p) = rounds * Z.to_nat (questions_per_round cfg)
    /\ fst p = (1 + Z.of_nat (List.length (snd p)))%Z.
Proof.
  unfold practice, practice_from. intros H.
  apply practice_loop_exchanges in H.
  destruct H as (rounds & xs & Hr & Hlen & -> & _).
  exists rounds. simpl. rewrite length_map. auto.
Qed.

Lemma at_least_one_round_witness :
  exists rounds : nat,
    1 <= rounds
    /\ List.length ["Q1"; "Q2"] = rounds * Z.to_nat 2
    /\ 3%Z = (1 + Z.of_nat (List.length ["Q1"; "Q2"]))%Z.
Proof.
  apply (at_least_one_round demo_cfg demo_world (3%Z, ["Q1"; "Q2"])
           (match practice demo_cfg demo_world with
            | Ret _ w' => w'
            | _ => demo_world
            end)).
  vm_compute. reflexivity.
Defined.

(** X12.  An exception of the model at the first question ends the
    session at once with that exception: nothing is tried again, and no
    question is announced. *)
Theorem model_fault_ends_session (w : World) (cfg : Config) (w1 : World)
    (e : exn) (rest : list reply) :
  configure w = Ret cfg w1 ->
  llm w = Throws e :: rest ->
  run_interview_session w
  = Raise e
      (mkWorld (stdin w1) (mic w1) rest
         (Printed (nl ++ times "=" 60) :: out w1)).
Proof.
  intros Hc Hl.
  pose proof (keeps_returned (same llm) _ _ _ _ configure_llm Hc) as Hl1.
  unfold same in Hl1. rewrite Hl in Hl1.
  assert (Hk : exists k, Z.to_nat (questions_per_round cfg) = S k).
  { destruct w as [i m l o].
    revert Hc.
    unfold configure, ask_count, bind, speak, print, emit, input, log, bind.
    cbn [stdin mic llm out].
    destruct i as [|topic [|voice lines]]; try discriminate.
    cbn [stdin mic llm out].
    destruct (loop _ count_turn tt _) as [n w2| | |] eqn:E; try discriminate.
    intros H. injection H as <- _. apply count_loop_returns in E.
    destruct E as (_ & _ & _ & _ & _ & Hn). simpl.
    exists (Nat.pred (Z.to_nat n)). lia. }
  destruct Hk as [k Hk].
  unfold run_interview_session, bind. rewrite Hc.
  unfold practice, practice_from. rewrite loop_step.
  cbn [practice_turn]. unfold bind, run_round. rewrite Hk.
  cbn [for_range]. unfold bind, one_question, print, emit, invoke.
  rewrite prompt_of_fill. unfold bind, complete, log.
  cbn [stdin mic llm out]. rewrite Hl1. reflexivity.
Qed.

Lemma model_fault_ends_session_witness :
  run_interview_session
    (mkWorld ["Go"; "no"; "3"; "x"] [] [Throws (Fault "rate limit")] [])
  = Raise (Fault "rate limit")
      (mkWorld ["x"] [] []
         (Printed (nl ++ times "=" 60)
            :: Prompted count_prompt :: retried [] (greeted []))).
Proof.
  apply (model_fault_ends_session
           (mkWorld ["Go"; "no"; "3"; "x"] [] [Throws (Fault "rate limit")]
              [])
           (mkConfig "Go" false 3)
           (mkWorld ["x"] [] [Throws (Fault "rate limit")]
              (Prompted count_prompt :: retried [] (greeted [])))
           (Fault "rate limit") []); reflexivity.
Defined.

(** X17.  An exception of the recogniser that [listen] does not handle
    goes up even after parts of the answer were heard: the exception is
    what comes out, not the parts. *)
Theorem recogniser_fault_discards_answer (texts : list string) (e : exn)
    (rest : list reply) (i : list string) (l : list reply)
    (o : list event) :
  forallb truthy texts = true ->
  fatal (Throws e) = Some e ->
  exists o',
    collect_voice_answer
      (mkWorld i (map Gives texts ++ Throws e :: rest) l o)
    = Raise e (mkWorld i rest l o').
Proof.
  intros Ht Hf. rewrite collect_voice_answer_run.
  destruct (voice_run_heard texts [] (Throws e :: rest) i l
              (Said voice_hint :: Printed voice_hint :: o) Ht) as (o' & E).
  rewrite E. destruct e; try discriminate Hf; simpl; eauto.
Qed.

Lemma recogniser_fault_discards_answer_witness :
  exists o',
    collect_voice_answer
      (mkWorld [] (map Gives ["first"; "second"]
                     ++ Throws (Fault "device") :: [Gives "x"]) [] [])
    = Raise (Fault "device") (mkWorld [] [Gives "x"] [] o').
Proof.
  apply (recogniser_fault_discards_answer ["first"; "second"]
           (Fault "device") [Gives "x"] [] [] []); reflexivity.
Defined.
